(** * LWMAC internal helpers (sys/net/gnrc/link_layer/lwmac/include/lwmac_internal.h)

    A shallow embedding of the inline functions of [lwmac_internal.h]: the
    phase clock ([_gnrc_lwmac_ticks_to_phase], [_gnrc_lwmac_phase_now],
    [_gnrc_lwmac_ticks_until_phase]) and the twelve flag accessors, with C's
    fixed-width integers written as [Z] and their wrap-around spelled out.
    The two functions the header only declares ([_gnrc_lwmac_parse_packet],
    [_gnrc_lwmac_dispatch_defer]) are modelled from the specification. *)

From Stdlib Require Import ZArith Lia List Bool.
From Stdlib.Strings Require Import Byte.
Import ListNotations.

Local Open Scope Z_scope.

(** ** C integer types *)

(** Conversion to an unsigned type of [w] bits: reduction modulo [2^w]. *)
Definition to_unsigned (w x : Z) : Z := x mod 2 ^ w.

Definition to_uint8 (x : Z) : Z := to_unsigned 8 x.
Definition to_uint16 (x : Z) : Z := to_unsigned 16 x.
Definition to_uint32 (x : Z) : Z := to_unsigned 32 x.

(** Conversion to a signed two's-complement type of [w] bits (what every
    compiler RIOT supports does with an out-of-range value). *)
Definition to_signed (w x : Z) : Z :=
  let m := x mod 2 ^ w in
  if m <? 2 ^ (w - 1) then m else m - 2 ^ w.

(** Conversion of an integer to [bool]: anything but zero is [true]. *)
Definition to_bool (x : Z) : bool := negb (x =? 0).

(** ** Calls that may abort *)

(** A call either returns, or stops in [assert], or divides by zero. *)
Inductive outcome (A : Type) : Type :=
| Returns (a : A)
| AssertionFailed
| DivisionByZero.

Arguments Returns {A} a.
Arguments AssertionFailed {A}.
Arguments DivisionByZero {A}.

Definition bind {A B : Type} (m : outcome A) (k : A -> outcome B) : outcome B :=
  match m with
  | Returns a => k a
  | AssertionFailed => AssertionFailed
  | DivisionByZero => DivisionByZero
  end.

Notation "x <- m ;; k" := (bind m (fun x => k))
  (at level 61, m at next level, right associativity).

(** ** Phase clock *)

Section PhaseClock.

(** Width of [long int] in bits: 32 on every target RIOT builds for
    (Cortex-M, AVR, MSP430, and [native], which is compiled with -m32);
    64 on an LP64 host. *)
Variable LONG_BIT : Z.

(** Configuration constant of [net/gnrc/lwmac/lwmac.h] and conversion macro
    of [periph/rtt.h]; neither is defined in this header.  The macro is
    taken to yield a [uint32_t] tick count. *)
Variable GNRC_LWMAC_WAKEUP_INTERVAL_US : Z.
Variable RTT_US_TO_TICKS : Z -> Z.

(** [RTT_US_TO_TICKS(GNRC_LWMAC_WAKEUP_INTERVAL_US)], the wake-up interval
    in ticks. *)
Definition INTERVAL : Z :=
  to_uint32 (RTT_US_TO_TICKS GNRC_LWMAC_WAKEUP_INTERVAL_US).

(** [uint32_t rtt_get_counter(void)]: the hardware counter, passed in as
    the state the call reads. *)
Definition rtt_get_counter (counter : Z) : Z := to_uint32 counter.

(** [assert(GNRC_LWMAC_WAKEUP_INTERVAL_US != 0);
     return (ticks % RTT_US_TO_TICKS(GNRC_LWMAC_WAKEUP_INTERVAL_US));] *)
Definition _gnrc_lwmac_ticks_to_phase (ticks : Z) : outcome Z :=
  if GNRC_LWMAC_WAKEUP_INTERVAL_US =? 0 then AssertionFailed
  else if INTERVAL =? 0 then DivisionByZero
  else Returns (to_uint32 ticks mod INTERVAL).

(** [return _gnrc_lwmac_ticks_to_phase(rtt_get_counter());] *)
Definition _gnrc_lwmac_phase_now (counter : Z) : outcome Z :=
  _gnrc_lwmac_ticks_to_phase (rtt_get_counter counter).

(** [long int tmp = phase - _gnrc_lwmac_phase_now();]
    The subtraction is done in [uint32_t] and wraps; the result is then
    converted to [long int]. *)
Definition phase_difference (phase now : Z) : Z :=
  to_signed LONG_BIT (to_uint32 (to_uint32 phase - now)).

(** [tmp += RTT_US_TO_TICKS(GNRC_LWMAC_WAKEUP_INTERVAL_US);]
    With a 32-bit [long] the sum is formed in [unsigned long] and converted
    back; with a 64-bit [long] it is formed in [long].  Both are the
    mathematical sum brought back into the range of [long]. *)
Definition add_interval (tmp : Z) : Z := to_signed LONG_BIT (tmp + INTERVAL).

(** [if (tmp < 0) { tmp += ...; } return (uint32_t)tmp;] *)
Definition _gnrc_lwmac_ticks_until_phase (counter phase : Z) : outcome Z :=
  now <- _gnrc_lwmac_phase_now counter ;;
  let tmp := phase_difference phase now in
  let tmp := if tmp <? 0 then add_interval tmp else tmp in
  Returns (to_uint32 tmp).

End PhaseClock.

(** Tick conversion of a counter running at [freq] Hz, used to instantiate
    the macro parameter: microseconds times frequency, divided by a million,
    rounded down. *)
Definition us_to_ticks_at (freq us : Z) : Z := us * freq / 1000000.

(** ** Protocol flag registers *)

Definition GNRC_NETDEV_LWMAC_TX_CONTINUE : Z := 0x0008.
Definition GNRC_NETDEV_LWMAC_QUIT_TX : Z := 0x0010.
Definition GNRC_NETDEV_LWMAC_PHASE_BACKOFF : Z := 0x0020.
Definition GNRC_NETDEV_LWMAC_QUIT_RX : Z := 0x0040.

(** The part of [gnrc_lwmac_t] the accessors touch: [uint8_t lwmac_info]. *)
Record gnrc_lwmac_t : Type := { lwmac_info : Z }.

(** The part of [gnrc_netdev_t] the accessors touch: [uint16_t mac_info] and
    the embedded [gnrc_lwmac_t lwmac]. *)
Record gnrc_netdev_t : Type := { mac_info : Z; lwmac : gnrc_lwmac_t }.

(** [dev->mac_info = v] and [dev->lwmac.lwmac_info = v]: the store converts
    to the width of the field. *)
Definition store_mac_info (dev : gnrc_netdev_t) (v : Z) : gnrc_netdev_t :=
  {| mac_info := to_uint16 v; lwmac := lwmac dev |}.

Definition store_lwmac_info (dev : gnrc_netdev_t) (v : Z) : gnrc_netdev_t :=
  {| mac_info := mac_info dev;
     lwmac := {| lwmac_info := to_uint8 v |} |}.

Section FlagRegisters.

(** Masks of [net/gnrc/lwmac/types.h], not defined in this header. *)
Variable GNRC_LWMAC_DUTYCYCLE_ACTIVE : Z.
Variable GNRC_LWMAC_NEEDS_RESCHEDULE : Z.

Definition gnrc_netdev_lwmac_set_tx_continue
    (dev : gnrc_netdev_t) (tx_continue : bool) : gnrc_netdev_t :=
  if tx_continue then
    store_mac_info dev (Z.lor (mac_info dev) GNRC_NETDEV_LWMAC_TX_CONTINUE)
  else
    store_mac_info dev
      (Z.land (mac_info dev) (Z.lnot GNRC_NETDEV_LWMAC_TX_CONTINUE)).

Definition gnrc_netdev_lwmac_get_tx_continue (dev : gnrc_netdev_t) : bool :=
  to_bool (Z.land (mac_info dev) GNRC_NETDEV_LWMAC_TX_CONTINUE).

Definition gnrc_netdev_lwmac_set_quit_tx
    (dev : gnrc_netdev_t) (quit_tx : bool) : gnrc_netdev_t :=
  if quit_tx then
    store_mac_info dev (Z.lor (mac_info dev) GNRC_NETDEV_LWMAC_QUIT_TX)
  else
    store_mac_info dev
      (Z.land (mac_info dev) (Z.lnot GNRC_NETDEV_LWMAC_QUIT_TX)).

Definition gnrc_netdev_lwmac_get_quit_tx (dev : gnrc_netdev_t) : bool :=
  to_bool (Z.land (mac_info dev) GNRC_NETDEV_LWMAC_QUIT_TX).

Definition gnrc_netdev_lwmac_set_phase_backoff
    (dev : gnrc_netdev_t) (backoff : bool) : gnrc_netdev_t :=
  if backoff then
    store_mac_info dev (Z.lor (mac_info dev) GNRC_NETDEV_LWMAC_PHASE_BACKOFF)
  else
    store_mac_info dev
      (Z.land (mac_info dev) (Z.lnot GNRC_NETDEV_LWMAC_PHASE_BACKOFF)).

Definition gnrc_netdev_lwmac_get_phase_backoff (dev : gnrc_netdev_t) : bool :=
  to_bool (Z.land (mac_info dev) GNRC_NETDEV_LWMAC_PHASE_BACKOFF).

Definition gnrc_netdev_lwmac_set_quit_rx
    (dev : gnrc_netdev_t) (quit_rx : bool) : gnrc_netdev_t :=
  if quit_rx then
    store_mac_info dev (Z.lor (mac_info dev) GNRC_NETDEV_LWMAC_QUIT_RX)
  else
    store_mac_info dev
      (Z.land (mac_info dev) (Z.lnot GNRC_NETDEV_LWMAC_QUIT_RX)).

Definition gnrc_netdev_lwmac_get_quit_rx (dev : gnrc_netdev_t) : bool :=
  to_bool (Z.land (mac_info dev) GNRC_NETDEV_LWMAC_QUIT_RX).

Definition gnrc_netdev_lwmac_set_dutycycle_active
    (dev : gnrc_netdev_t) (active : bool) : gnrc_netdev_t :=
  if active then
    store_lwmac_info dev
      (Z.lor (lwmac_info (lwmac dev)) GNRC_LWMAC_DUTYCYCLE_ACTIVE)
  else
    store_lwmac_info dev
      (Z.land (lwmac_info (lwmac dev)) (Z.lnot GNRC_LWMAC_DUTYCYCLE_ACTIVE)).

Definition gnrc_netdev_lwmac_get_dutycycle_active
    (dev : gnrc_netdev_t) : bool :=
  to_bool (Z.land (lwmac_info (lwmac dev)) GNRC_LWMAC_DUTYCYCLE_ACTIVE).

Definition gnrc_netdev_lwmac_set_reschedule
    (dev : gnrc_netdev_t) (reschedule : bool) : gnrc_netdev_t :=
  if reschedule then
    store_lwmac_info dev
      (Z.lor (lwmac_info (lwmac dev)) GNRC_LWMAC_NEEDS_RESCHEDULE)
  else
    store_lwmac_info dev
      (Z.land (lwmac_info (lwmac dev)) (Z.lnot GNRC_LWMAC_NEEDS_RESCHEDULE)).

Definition gnrc_netdev_lwmac_get_reschedule (dev : gnrc_netdev_t) : bool :=
  to_bool (Z.land (lwmac_info (lwmac dev)) GNRC_LWMAC_NEEDS_RESCHEDULE).

(** The six flags, to quantify over the accessor pairs. *)
Inductive flag : Type :=
| TxContinue
| QuitTx
| PhaseBackoff
| QuitRx
| DutycycleActive
| NeedsReschedule.

Definition set_flag (f : flag) : gnrc_netdev_t -> bool -> gnrc_netdev_t :=
  match f with
  | TxContinue => gnrc_netdev_lwmac_set_tx_continue
  | QuitTx => gnrc_netdev_lwmac_set_quit_tx
  | PhaseBackoff => gnrc_netdev_lwmac_set_phase_backoff
  | QuitRx => gnrc_netdev_lwmac_set_quit_rx
  | DutycycleActive => gnrc_netdev_lwmac_set_dutycycle_active
  | NeedsReschedule => gnrc_netdev_lwmac_set_reschedule
  end.

Definition get_flag (f : flag) : gnrc_netdev_t -> bool :=
  match f with
  | TxContinue => gnrc_netdev_lwmac_get_tx_continue
  | QuitTx => gnrc_netdev_lwmac_get_quit_tx
  | PhaseBackoff => gnrc_netdev_lwmac_get_phase_backoff
  | QuitRx => gnrc_netdev_lwmac_get_quit_rx
  | DutycycleActive => gnrc_netdev_lwmac_get_dutycycle_active
  | NeedsReschedule => gnrc_netdev_lwmac_get_reschedule
  end.

End FlagRegisters.


(** ** Byte strings *)

Fixpoint bytes_eqb (a b : list byte) : bool :=
  match a, b with
  | [], [] => true
  | x :: a', y :: b' => Byte.eqb x y && bytes_eqb a' b'
  | _, _ => false
  end.

(** ** Dispatch deduplication buffer *)

(** A received packet as the dispatch buffer looks at it: the originating
    link-layer address and the content. *)
Record packet : Type := { origin : list byte; content : list byte }.

(** The array [gnrc_pktsnip_t *buffer[]] (a free slot is [NULL], the
    capacity is the number of slots) together with the packets handed back
    to the packet buffer by [gnrc_pktbuf_release]. *)
Record dispatch_state : Type :=
  { slots : list (option packet); released : list packet }.

Inductive defer_outcome : Type :=
| Inserted
| DuplicateDiscarded
| BufferFull.

(** The [int] the C function hands back: the header documents 0 if correctly
    stored and <0 on error; a discarded duplicate is neither. *)
Definition defer_return_value (o : defer_outcome) : Z :=
  match o with
  | Inserted => 0
  | DuplicateDiscarded => 1
  | BufferFull => -1
  end.

Definition occupied (slot : option packet) : bool :=
  match slot with Some _ => true | None => false end.

(** Number of entries awaiting delivery. *)
Definition stored_count (buffer : list (option packet)) : nat :=
  length (filter occupied buffer).

Section DispatchBuffer.

(** The content signature of the duplicate key; the specification leaves
    its choice to the implementer. *)
Variable signature : list byte -> Z.

(** Modelled from the spec: the duplicate test of
    [_gnrc_lwmac_dispatch_defer] (lwmac_internal.c is not part of the
    sources): same originating address and same content signature. *)
Definition is_duplicate (stored incoming : packet) : bool :=
  bytes_eqb (origin stored) (origin incoming)
  && (signature (content stored) =? signature (content incoming)).

Definition holds_duplicate (incoming : packet) (slot : option packet) : bool :=
  match slot with
  | Some stored => is_duplicate stored incoming
  | None => false
  end.

(** Number of stored entries recognised as duplicates of [incoming]. *)
Definition duplicate_count (buffer : list (option packet)) (incoming : packet)
  : nat :=
  length (filter (holds_duplicate incoming) buffer).

(** Modelled from the spec: the insertion step of
    [_gnrc_lwmac_dispatch_defer], which puts the packet into a free slot if
    there is one. *)
Fixpoint insert_free (buffer : list (option packet)) (pkt : packet)
  : option (list (option packet)) :=
  match buffer with
  | [] => None
  | None :: rest => Some (Some pkt :: rest)
  | Some stored :: rest =>
      match insert_free rest pkt with
      | Some rest' => Some (Some stored :: rest')
      | None => None
      end
  end.

(** Modelled from the spec: the body of [_gnrc_lwmac_dispatch_defer], which
    lwmac_internal.h only declares.  Scan the entries for a duplicate of the
    incoming packet; if there is one, release the incoming packet and report
    the discard without modifying the buffer; otherwise insert into a free
    slot; if there is none, report an error, evict nothing and leave the
    packet to the caller. *)
Definition _gnrc_lwmac_dispatch_defer (st : dispatch_state) (pkt : packet)
  : dispatch_state * defer_outcome :=
  if existsb (holds_duplicate pkt) (slots st) then
    ({| slots := slots st; released := pkt :: released st |},
     DuplicateDiscarded)
  else
    match insert_free (slots st) pkt with
    | Some buffer' =>
        ({| slots := buffer'; released := released st |}, Inserted)
    | None => (st, BufferFull)
    end.

End DispatchBuffer.

(** ** Packet parser *)

(** [gnrc_lwmac_l2_addr_t]: an owned copy of a link-layer address. *)
Record gnrc_lwmac_l2_addr_t : Type := { addr : list byte; len : nat }.

(** [gnrc_lwmac_hdr_t *]: a view into the packet, not a copy. *)
Record header_view : Type := { view_offset : nat; view_length : nat }.

(** [gnrc_lwmac_packet_info_t]; [header] is [None] for a null pointer. *)
Record gnrc_lwmac_packet_info_t : Type :=
  { header : option header_view;
    src_addr : gnrc_lwmac_l2_addr_t;
    dst_addr : gnrc_lwmac_l2_addr_t }.

(** What a recognised header says about the frame: its own size and where
    the two addresses are. *)
Record header_shape : Type :=
  { header_size : nat;
    src_offset : nat; src_len : nat;
    dst_offset : nat; dst_len : nat }.

Inductive parse_error : Type :=
| PacketTooShort
| UnrecognisedHeader
| AddressOutOfBounds.

(** The header documents 0 if correctly parsed and <0 on error. *)
Definition parse_error_code (e : parse_error) : Z :=
  match e with
  | PacketTooShort => -1
  | UnrecognisedHeader => -2
  | AddressOutOfBounds => -3
  end.

Definition copy_address (pkt : list byte) (offset length : nat)
  : gnrc_lwmac_l2_addr_t :=
  {| addr := firstn length (skipn offset pkt); len := length |}.

Section PacketParser.

(** Constants and header layout the specification names but does not fix. *)
Variable MINIMUM_HEADER_SIZE : nat.
Variable MAXIMUM_ADDRESS_LENGTH : nat.
Variable recognise_header : list byte -> option header_shape.

Definition address_fits (pkt : list byte) (offset length : nat) : bool :=
  (length <=? MAXIMUM_ADDRESS_LENGTH)%nat
  && (offset + length <=? List.length pkt)%nat.

(** Modelled from the spec: [parse(packet) -> (packet_info | error)] of the
    packet parser, whose body (lwmac_internal.c) is not part of the sources.
    Validate that the buffer is at least as long as the minimum header,
    locate the header without copying it, then copy the two addresses. *)
Definition parse (pkt : list byte) : parse_error + gnrc_lwmac_packet_info_t :=
  if (List.length pkt <? MINIMUM_HEADER_SIZE)%nat then inl PacketTooShort
  else
    match recognise_header pkt with
    | None => inl UnrecognisedHeader
    | Some shape =>
        if (header_size shape <=? List.length pkt)%nat
           && address_fits pkt (src_offset shape) (src_len shape)
           && address_fits pkt (dst_offset shape) (dst_len shape)
        then
          inr {| header := Some {| view_offset := 0;
                                   view_length := header_size shape |};
                 src_addr := copy_address pkt (src_offset shape) (src_len shape);
                 dst_addr := copy_address pkt (dst_offset shape) (dst_len shape) |}
        else inl AddressOutOfBounds
    end.

(** Modelled from the spec: [_gnrc_lwmac_parse_packet(pkt, info)], which
    lwmac_internal.h only declares: the result of [parse] written through the
    out-parameter, which is left as it was when parsing fails. *)
Definition _gnrc_lwmac_parse_packet
    (pkt : list byte) (info : gnrc_lwmac_packet_info_t)
  : Z * gnrc_lwmac_packet_info_t :=
  match parse pkt with
  | inl e => (parse_error_code e, info)
  | inr parsed => (0, parsed)
  end.

(** A packet the parser must reject: too short, or of no known shape. *)
Definition malformed (pkt : list byte) : Prop :=
  (List.length pkt < MINIMUM_HEADER_SIZE)%nat \/ recognise_header pkt = None.

End PacketParser.

(** ** Sample data *)

(** A signature for the examples: the length of the content. *)
Definition length_signature (c : list byte) : Z := Z.of_nat (length c).

Definition packet_from (source : byte) : packet :=
  {| origin := [source]; content := [xaa; xbb] |}.

(** A two-slot buffer with one entry, and two full ones. *)
Definition one_of_two : dispatch_state :=
  {| slots := [Some (packet_from x01); None]; released := [] |}.

Definition two_of_two : dispatch_state :=
  {| slots := [Some (packet_from x01); Some (packet_from x02)];
     released := [] |}.

(** A header recogniser that knows no frame, and a record not yet
    written. *)
Definition recognise_nothing (pkt : list byte) : option header_shape := None.

Definition unset_info : gnrc_lwmac_packet_info_t :=
  {| header := None;
     src_addr := {| addr := []; len := 0 |};
     dst_addr := {| addr := []; len := 0 |} |}.

(** ** The registers, flag by flag *)

Section FlagLayout.

Variable GNRC_LWMAC_DUTYCYCLE_ACTIVE : Z.
Variable GNRC_LWMAC_NEEDS_RESCHEDULE : Z.

(** The mask the accessor pair of a flag works with. *)
Definition flag_mask (f : flag) : Z :=
  match f with
  | TxContinue => GNRC_NETDEV_LWMAC_TX_CONTINUE
  | QuitTx => GNRC_NETDEV_LWMAC_QUIT_TX
  | PhaseBackoff => GNRC_NETDEV_LWMAC_PHASE_BACKOFF
  | QuitRx => GNRC_NETDEV_LWMAC_QUIT_RX
  | DutycycleActive => GNRC_LWMAC_DUTYCYCLE_ACTIVE
  | NeedsReschedule => GNRC_LWMAC_NEEDS_RESCHEDULE
  end.

End FlagLayout.

(** Whether the accessors of a flag work on [dev->lwmac.lwmac_info] rather
    than on [dev->mac_info]. *)
Definition in_lwmac_info (f : flag) : bool :=
  match f with
  | DutycycleActive | NeedsReschedule => true
  | _ => false
  end.

(** The register the accessors of a flag work on, its width, and the
    register they do not mention. *)
Definition flag_register (f : flag) (dev : gnrc_netdev_t) : Z :=
  if in_lwmac_info f then lwmac_info (lwmac dev) else mac_info dev.

Definition register_bits (f : flag) : Z :=
  if in_lwmac_info f then 8 else 16.

Definition other_register (f : flag) (dev : gnrc_netdev_t) : Z :=
  if in_lwmac_info f then mac_info dev else lwmac_info (lwmac dev).

(** Both registers hold a value of their type. *)
Definition registers_in_range (dev : gnrc_netdev_t) : Prop :=
  0 <= mac_info dev < 2 ^ 16 /\ 0 <= lwmac_info (lwmac dev) < 2 ^ 8.

(** A device for the examples: RX-started and quit-RX bits set in
    [mac_info], the first bit set in [lwmac_info]. *)
Definition sample_device : gnrc_netdev_t :=
  {| mac_info := 0x0044; lwmac := {| lwmac_info := 0x01 |} |}.

(** * Properties *)

(** ** Integer conversions *)

Lemma to_uint32_range (x : Z) : 0 <= to_uint32 x < 2 ^ 32.
Proof. unfold to_uint32, to_unsigned. apply Z.mod_pos_bound. lia. Qed.

Lemma to_uint32_small (x : Z) : 0 <= x < 2 ^ 32 -> to_uint32 x = x.
Proof. intros H. unfold to_uint32, to_unsigned. now apply Z.mod_small. Qed.

Lemma to_uint32_borrow (x : Z) : - 2 ^ 32 <= x < 0 -> to_uint32 x = x + 2 ^ 32.
Proof.
  intros H. unfold to_uint32, to_unsigned.
  symmetry. apply Z.mod_unique with (q := -1); lia.
Qed.

Lemma to_uint32_carry (x : Z) :
  2 ^ 32 <= x < 2 * 2 ^ 32 -> to_uint32 x = x - 2 ^ 32.
Proof.
  intros H. unfold to_uint32, to_unsigned.
  symmetry. apply Z.mod_unique with (q := 1); lia.
Qed.

Lemma to_signed32_low (x : Z) : 0 <= x < 2 ^ 31 -> to_signed 32 x = x.
Proof.
  intros H. unfold to_signed. cbv zeta.
  rewrite Z.mod_small by lia.
  change (32 - 1) with 31.
  destruct (Z.ltb_spec x (2 ^ 31)); lia.
Qed.

Lemma to_signed32_high (x : Z) :
  2 ^ 31 <= x < 2 ^ 32 -> to_signed 32 x = x - 2 ^ 32.
Proof.
  intros H. unfold to_signed. cbv zeta.
  rewrite Z.mod_small by lia.
  change (32 - 1) with 31.
  destruct (Z.ltb_spec x (2 ^ 31)); lia.
Qed.

(** Going through [long] and back to [uint32_t] loses nothing. *)
Lemma to_uint32_to_signed32 (x : Z) : to_uint32 (to_signed 32 x) = to_uint32 x.
Proof.
  unfold to_signed. cbv zeta.
  destruct (x mod 2 ^ 32 <? 2 ^ (32 - 1)); unfold to_uint32, to_unsigned.
  - apply Z.mod_mod. lia.
  - rewrite <- (Z.mod_add _ 1 (2 ^ 32)) by lia.
    replace (x mod 2 ^ 32 - 2 ^ 32 + 1 * 2 ^ 32) with (x mod 2 ^ 32) by lia.
    apply Z.mod_mod. lia.
Qed.

(** ** Phase clock *)

Section PhaseClockFacts.

Variable GNRC_LWMAC_WAKEUP_INTERVAL_US : Z.
Variable RTT_US_TO_TICKS : Z -> Z.

Local Abbreviation interval :=
  (INTERVAL GNRC_LWMAC_WAKEUP_INTERVAL_US RTT_US_TO_TICKS).
Local Abbreviation ticks_to_phase :=
  (_gnrc_lwmac_ticks_to_phase GNRC_LWMAC_WAKEUP_INTERVAL_US RTT_US_TO_TICKS).
Local Abbreviation phase_now :=
  (_gnrc_lwmac_phase_now GNRC_LWMAC_WAKEUP_INTERVAL_US RTT_US_TO_TICKS).
Local Abbreviation ticks_until_phase long_bit :=
  (_gnrc_lwmac_ticks_until_phase long_bit
     GNRC_LWMAC_WAKEUP_INTERVAL_US RTT_US_TO_TICKS).

Lemma INTERVAL_range : 0 <= interval < 2 ^ 32.
Proof. apply to_uint32_range. Qed.

(** With a non-zero configuration constant and a non-zero tick interval the
    reduction returns the remainder. *)
Lemma ticks_to_phase_returns (ticks : Z) :
  GNRC_LWMAC_WAKEUP_INTERVAL_US <> 0 ->
  interval <> 0 ->
  ticks_to_phase ticks = Returns (to_uint32 ticks mod interval).
Proof.
  intros Hus Hticks. unfold _gnrc_lwmac_ticks_to_phase.
  destruct (Z.eqb_spec GNRC_LWMAC_WAKEUP_INTERVAL_US 0); [contradiction|].
  destruct (Z.eqb_spec interval 0); [contradiction|reflexivity].
Qed.

Lemma phase_now_returns (counter : Z) :
  GNRC_LWMAC_WAKEUP_INTERVAL_US <> 0 ->
  interval <> 0 ->
  phase_now counter = Returns (to_uint32 (to_uint32 counter) mod interval).
Proof.
  intros Hus Hticks. unfold _gnrc_lwmac_phase_now.
  now apply ticks_to_phase_returns.
Qed.

Lemma phase_range (ticks : Z) :
  interval <> 0 -> 0 <= to_uint32 ticks mod interval < interval.
Proof.
  intros Hticks. pose proof INTERVAL_range. apply Z.mod_pos_bound. lia.
Qed.

(** What [_gnrc_lwmac_ticks_until_phase] computes with a 32-bit [long], in
    terms of the wrapped difference [d] of the two phases. *)
Lemma ticks_until_phase_32 (counter phase : Z) :
  GNRC_LWMAC_WAKEUP_INTERVAL_US <> 0 ->
  interval <> 0 ->
  0 <= phase < interval ->
  let now := to_uint32 (to_uint32 counter) mod interval in
  let d := to_uint32 (phase - now) in
  ticks_until_phase 32 counter phase =
    Returns (if d <? 2 ^ 31 then d else to_uint32 (d + interval)).
Proof.
  intros Hus Hticks Hp now d.
  unfold _gnrc_lwmac_ticks_until_phase.
  rewrite phase_now_returns by assumption. cbn [bind]. fold now.
  unfold phase_difference, add_interval.
  pose proof INTERVAL_range as Hi.
  rewrite (to_uint32_small phase) by lia. fold d.
  pose proof (to_uint32_range (phase - now)) as Hd. fold d in Hd.
  destruct (Z.ltb_spec d (2 ^ 31)) as [Hlow|Hhigh].
  - rewrite to_signed32_low by lia.
    destruct (Z.ltb_spec d 0); [lia|].
    now rewrite to_uint32_small by lia.
  - rewrite to_signed32_high by lia.
    destruct (Z.ltb_spec (d - 2 ^ 32) 0); [|lia].
    rewrite to_uint32_to_signed32.
    f_equal. unfold to_uint32, to_unsigned.
    rewrite <- (Z.mod_add (d - 2 ^ 32 + interval) 1 (2 ^ 32)) by lia.
    f_equal. lia.
Qed.

(** With an interval of at most [2^31] ticks the signed difference of two
    phases fits a 32-bit [long], and the function is the textbook one. *)
Lemma ticks_until_phase_32_exact (counter phase : Z) :
  GNRC_LWMAC_WAKEUP_INTERVAL_US <> 0 ->
  0 < interval <= 2 ^ 31 ->
  0 <= phase < interval ->
  let now := to_uint32 (to_uint32 counter) mod interval in
  ticks_until_phase 32 counter phase =
    Returns (if phase - now <? 0 then phase - now + interval else phase - now).
Proof.
  intros Hus Hi Hp now.
  rewrite ticks_until_phase_32 by (assumption || lia).
  cbv zeta. fold now.
  assert (Hnow : 0 <= now < interval) by (apply phase_range; lia).
  f_equal.
  destruct (Z.ltb_spec (phase - now) 0) as [Hneg|Hpos].
  - rewrite (to_uint32_borrow (phase - now)) by lia.
    destruct (Z.ltb_spec (phase - now + 2 ^ 32) (2 ^ 31)); [lia|].
    rewrite to_uint32_carry by lia. lia.
  - rewrite (to_uint32_small (phase - now)) by lia.
    destruct (Z.ltb_spec (phase - now) (2 ^ 31)); [reflexivity|lia].
Qed.

(** The three functions return when both the configured constant and its
    tick conversion are non-zero. *)
Lemma phase_clock_returns (long_bit ticks counter phase : Z) :
  GNRC_LWMAC_WAKEUP_INTERVAL_US <> 0 ->
  interval <> 0 ->
  (exists p, ticks_to_phase ticks = Returns p) /\
  (exists p, phase_now counter = Returns p) /\
  (exists t, ticks_until_phase long_bit counter phase = Returns t).
Proof.
  intros Hus Hticks. repeat split.
  - eexists. now apply ticks_to_phase_returns.
  - eexists. now apply phase_now_returns.
  - unfold _gnrc_lwmac_ticks_until_phase.
    rewrite phase_now_returns by assumption. cbn [bind]. eexists. reflexivity.
Qed.

(** C3: for every tick count the phase returned by
    [_gnrc_lwmac_ticks_to_phase] is at least 0 and strictly below the
    wake-up interval in ticks, and so is the phase returned by
    [_gnrc_lwmac_phase_now] for every value of the counter (the interval
    being configured and non-zero). *)
Theorem phase_within_interval (ticks counter : Z) :
  GNRC_LWMAC_WAKEUP_INTERVAL_US <> 0 ->
  INTERVAL GNRC_LWMAC_WAKEUP_INTERVAL_US RTT_US_TO_TICKS <> 0 ->
  (exists p,
     _gnrc_lwmac_ticks_to_phase
       GNRC_LWMAC_WAKEUP_INTERVAL_US RTT_US_TO_TICKS ticks = Returns p /\
     0 <= p < INTERVAL GNRC_LWMAC_WAKEUP_INTERVAL_US RTT_US_TO_TICKS) /\
  (exists p,
     _gnrc_lwmac_phase_now
       GNRC_LWMAC_WAKEUP_INTERVAL_US RTT_US_TO_TICKS counter = Returns p /\
     0 <= p < INTERVAL GNRC_LWMAC_WAKEUP_INTERVAL_US RTT_US_TO_TICKS).
Proof.
  intros Hus Hticks. split.
  - exists (to_uint32 ticks mod interval). split.
    + now apply ticks_to_phase_returns.
    + now apply phase_range.
  - exists (to_uint32 (to_uint32 counter) mod interval). split.
    + now apply phase_now_returns.
    + now apply phase_range.
Qed.

(** Where the code does compute the remaining ticks: with a 32-bit [long]
    and a wake-up interval of at most [2^31] ticks, for every target phase
    in [0, INTERVAL) [_gnrc_lwmac_ticks_until_phase] returns the target
    phase minus the current phase, plus one interval when that difference
    is negative; with INTERVAL = 100000, current phase 90000 and target
    phase 10000 it returns 20000. *)
Theorem ticks_until_phase_difference (long_bit counter phase : Z) :
  long_bit = 32 ->
  GNRC_LWMAC_WAKEUP_INTERVAL_US <> 0 ->
  0 < INTERVAL GNRC_LWMAC_WAKEUP_INTERVAL_US RTT_US_TO_TICKS <= 2 ^ 31 ->
  0 <= phase < INTERVAL GNRC_LWMAC_WAKEUP_INTERVAL_US RTT_US_TO_TICKS ->
  exists now,
    _gnrc_lwmac_phase_now
      GNRC_LWMAC_WAKEUP_INTERVAL_US RTT_US_TO_TICKS counter = Returns now /\
    _gnrc_lwmac_ticks_until_phase long_bit
      GNRC_LWMAC_WAKEUP_INTERVAL_US RTT_US_TO_TICKS counter phase =
      Returns
        (if phase - now <? 0
         then phase - now
              + INTERVAL GNRC_LWMAC_WAKEUP_INTERVAL_US RTT_US_TO_TICKS
         else phase - now) /\
    (INTERVAL GNRC_LWMAC_WAKEUP_INTERVAL_US RTT_US_TO_TICKS = 100000 ->
     now = 90000 -> phase = 10000 ->
     _gnrc_lwmac_ticks_until_phase long_bit
       GNRC_LWMAC_WAKEUP_INTERVAL_US RTT_US_TO_TICKS counter phase
     = Returns 20000).
Proof.
  intros -> Hus Hi Hp.
  exists (to_uint32 (to_uint32 counter) mod interval).
  assert (Heq := ticks_until_phase_32_exact counter phase Hus Hi Hp).
  cbv zeta in Heq. repeat split.
  - apply phase_now_returns; lia.
  - exact Heq.
  - intros Hint Hnow ->. rewrite Heq, Hnow, Hint. reflexivity.
Qed.

(** Where the code does land on the target: with a 32-bit [long] and a
    wake-up interval of at most [2^31] ticks, for every target phase p in
    [0, INTERVAL) and every counter value, the current phase plus the result
    of [_gnrc_lwmac_ticks_until_phase] is p modulo the interval. *)
Theorem ticks_until_phase_lands_on_target (long_bit counter phase : Z) :
  long_bit = 32 ->
  GNRC_LWMAC_WAKEUP_INTERVAL_US <> 0 ->
  0 < INTERVAL GNRC_LWMAC_WAKEUP_INTERVAL_US RTT_US_TO_TICKS <= 2 ^ 31 ->
  0 <= phase < INTERVAL GNRC_LWMAC_WAKEUP_INTERVAL_US RTT_US_TO_TICKS ->
  exists now ticks,
    _gnrc_lwmac_phase_now
      GNRC_LWMAC_WAKEUP_INTERVAL_US RTT_US_TO_TICKS counter = Returns now /\
    _gnrc_lwmac_ticks_until_phase long_bit
      GNRC_LWMAC_WAKEUP_INTERVAL_US RTT_US_TO_TICKS counter phase
    = Returns ticks /\
    (now + ticks) mod INTERVAL GNRC_LWMAC_WAKEUP_INTERVAL_US RTT_US_TO_TICKS
    = phase.
Proof.
  intros -> Hus Hi Hp.
  set (now := to_uint32 (to_uint32 counter) mod interval).
  assert (Hnow : 0 <= now < interval) by (apply phase_range; lia).
  exists now.
  exists (if phase - now <? 0 then phase - now + interval else phase - now).
  repeat split.
  - apply phase_now_returns; lia.
  - now apply ticks_until_phase_32_exact.
  - destruct (Z.ltb_spec (phase - now) 0).
    + replace (now + (phase - now + interval)) with (phase + 1 * interval)
        by lia.
      rewrite Z.mod_add by lia. apply Z.mod_small. lia.
    + replace (now + (phase - now)) with phase by lia.
      apply Z.mod_small. lia.
Qed.

(** C10: with a 32-bit [long], for every target phase in [0, INTERVAL) the
    result of [_gnrc_lwmac_ticks_until_phase] lies in [0, INTERVAL), and it
    is 0 when the target phase is the current phase. *)
Theorem ticks_until_phase_within_interval (long_bit counter phase : Z) :
  long_bit = 32 ->
  GNRC_LWMAC_WAKEUP_INTERVAL_US <> 0 ->
  INTERVAL GNRC_LWMAC_WAKEUP_INTERVAL_US RTT_US_TO_TICKS <> 0 ->
  0 <= phase < INTERVAL GNRC_LWMAC_WAKEUP_INTERVAL_US RTT_US_TO_TICKS ->
  exists ticks,
    _gnrc_lwmac_ticks_until_phase long_bit
      GNRC_LWMAC_WAKEUP_INTERVAL_US RTT_US_TO_TICKS counter phase
    = Returns ticks /\
    0 <= ticks < INTERVAL GNRC_LWMAC_WAKEUP_INTERVAL_US RTT_US_TO_TICKS /\
    (_gnrc_lwmac_phase_now
       GNRC_LWMAC_WAKEUP_INTERVAL_US RTT_US_TO_TICKS counter = Returns phase ->
     ticks = 0).
Proof.
  intros -> Hus Hticks Hp.
  pose proof INTERVAL_range as Hi.
  assert (Heq := ticks_until_phase_32 counter phase Hus Hticks Hp).
  cbv zeta in Heq.
  set (now := to_uint32 (to_uint32 counter) mod interval) in *.
  assert (Hnow : 0 <= now < interval) by (apply phase_range; lia).
  eexists. split; [exact Heq|]. split.
  - destruct (Z.le_gt_cases 0 (phase - now)) as [Hpos|Hneg].
    + rewrite (to_uint32_small (phase - now)) by lia.
      destruct (Z.ltb_spec (phase - now) (2 ^ 31)); [lia|].
      rewrite to_uint32_carry by lia. lia.
    + rewrite (to_uint32_borrow (phase - now)) by lia.
      destruct (Z.ltb_spec (phase - now + 2 ^ 32) (2 ^ 31)); [lia|].
      rewrite to_uint32_carry by lia. lia.
  - intros Hsame. rewrite phase_now_returns in Hsame by assumption.
    injection Hsame as Hsame. fold now in Hsame. rewrite Hsame.
    replace (phase - phase) with 0 by lia. reflexivity.
Qed.

End PhaseClockFacts.

(** *** Concrete configurations *)

(** The scenario of the specification: a 1 MHz counter and a 100 ms
    interval give INTERVAL = 100000; the counter stands at 90000 and the
    target phase is 10000. *)
Lemma ticks_until_phase_difference_scenario :
  (32 = 32 /\ 100000 <> 0 /\
   0 < INTERVAL 100000 (us_to_ticks_at 1000000) <= 2 ^ 31 /\
   0 <= 10000 < INTERVAL 100000 (us_to_ticks_at 1000000)) /\
  _gnrc_lwmac_ticks_until_phase 32 100000 (us_to_ticks_at 1000000) 90000 10000
  = Returns 20000.
Proof.
  assert (Hi : INTERVAL 100000 (us_to_ticks_at 1000000) = 100000)
    by reflexivity.
  assert (H : 32 = 32 /\ 100000 <> 0 /\
              0 < INTERVAL 100000 (us_to_ticks_at 1000000) <= 2 ^ 31 /\
              0 <= 10000 < INTERVAL 100000 (us_to_ticks_at 1000000))
    by (rewrite Hi; lia).
  split; [exact H|].
  destruct H as [H32 [Hus [Hi31 Hp]]].
  destruct (ticks_until_phase_difference 100000 (us_to_ticks_at 1000000)
              32 90000 10000 H32 Hus Hi31 Hp) as [now [Hnow [_ Hscenario]]].
  apply Hscenario; [exact Hi| |reflexivity].
  vm_compute in Hnow. now injection Hnow as <-.
Defined.

(** C1: the code misses the ticks remaining to the target phase once the
    interval exceeds [2^31] ticks.  With a 1 MHz counter and an interval of
    3221225472 us, current phase 0 and target phase 3221225471, the
    difference is 3221225471 and not negative, but the 32-bit [long tmp]
    reads it as negative, the branch for a phase in the next interval is
    taken and the function returns 2147483647. *)
Lemma ticks_until_phase_wide_interval :
  INTERVAL 3221225472 (us_to_ticks_at 1000000) = 3221225472 /\
  0 <= 3221225471 < INTERVAL 3221225472 (us_to_ticks_at 1000000) /\
  _gnrc_lwmac_phase_now 3221225472 (us_to_ticks_at 1000000) 0 = Returns 0 /\
  (3221225471 - 0 <? 0) = false /\
  _gnrc_lwmac_ticks_until_phase 32 3221225472 (us_to_ticks_at 1000000)
    0 3221225471 = Returns 2147483647 /\
  _gnrc_lwmac_ticks_until_phase 32 3221225472 (us_to_ticks_at 1000000)
    0 3221225471 <> Returns (3221225471 - 0).
Proof.
  repeat split; vm_compute; congruence.
Qed.

Lemma ticks_until_phase_lands_on_target_scenario :
  (32 = 32 /\ 100000 <> 0 /\
   0 < INTERVAL 100000 (us_to_ticks_at 32768) <= 2 ^ 31 /\
   0 <= 10 < INTERVAL 100000 (us_to_ticks_at 32768)) /\
  exists now ticks,
    _gnrc_lwmac_phase_now 100000 (us_to_ticks_at 32768) 5000 = Returns now /\
    _gnrc_lwmac_ticks_until_phase 32 100000 (us_to_ticks_at 32768) 5000 10
    = Returns ticks /\
    (now + ticks) mod INTERVAL 100000 (us_to_ticks_at 32768) = 10.
Proof.
  assert (Hi : INTERVAL 100000 (us_to_ticks_at 32768) = 3276) by reflexivity.
  assert (H : 32 = 32 /\ 100000 <> 0 /\
              0 < INTERVAL 100000 (us_to_ticks_at 32768) <= 2 ^ 31 /\
              0 <= 10 < INTERVAL 100000 (us_to_ticks_at 32768))
    by (rewrite Hi; lia).
  split; [exact H|].
  destruct H as [H32 [Hus [Hi31 Hp]]].
  exact (ticks_until_phase_lands_on_target 100000 (us_to_ticks_at 32768)
           32 5000 10 H32 Hus Hi31 Hp).
Defined.

(** C2: by the same misread sign of [tmp] the result does not land on the
    target phase once the interval exceeds [2^31] ticks: interval
    3221225472, counter 1000 (phase 1000), target phase 3000000000; the
    function returns 1926257176 and 1000 + 1926257176 is not the target
    modulo the interval. *)
Lemma ticks_until_phase_misses_target :
  0 <= 3000000000 < INTERVAL 3221225472 (us_to_ticks_at 1000000) /\
  _gnrc_lwmac_phase_now 3221225472 (us_to_ticks_at 1000000) 1000
  = Returns 1000 /\
  _gnrc_lwmac_ticks_until_phase 32 3221225472 (us_to_ticks_at 1000000)
    1000 3000000000 = Returns 1926257176 /\
  (1000 + 1926257176) mod INTERVAL 3221225472 (us_to_ticks_at 1000000)
  <> 3000000000.
Proof.
  repeat split; vm_compute; congruence.
Qed.

Lemma ticks_until_phase_within_interval_scenario :
  (32 = 32 /\ 3221225472 <> 0 /\
   INTERVAL 3221225472 (us_to_ticks_at 1000000) <> 0 /\
   0 <= 3000000000 < INTERVAL 3221225472 (us_to_ticks_at 1000000)) /\
  exists ticks,
    _gnrc_lwmac_ticks_until_phase 32 3221225472 (us_to_ticks_at 1000000)
      3000000000 3000000000 = Returns ticks /\
    0 <= ticks < INTERVAL 3221225472 (us_to_ticks_at 1000000) /\
    (_gnrc_lwmac_phase_now 3221225472 (us_to_ticks_at 1000000) 3000000000
     = Returns 3000000000 -> ticks = 0).
Proof.
  assert (Hi : INTERVAL 3221225472 (us_to_ticks_at 1000000) = 3221225472)
    by reflexivity.
  assert (H : 32 = 32 /\ 3221225472 <> 0 /\
              INTERVAL 3221225472 (us_to_ticks_at 1000000) <> 0 /\
              0 <= 3000000000 < INTERVAL 3221225472 (us_to_ticks_at 1000000))
    by (rewrite Hi; lia).
  split; [exact H|].
  destruct H as [H32 [Hus [Hi0 Hp]]].
  exact (ticks_until_phase_within_interval 3221225472 (us_to_ticks_at 1000000)
           32 3000000000 3000000000 H32 Hus Hi0 Hp).
Defined.

Lemma phase_within_interval_scenario :
  (100000 <> 0 /\ INTERVAL 100000 (us_to_ticks_at 32768) <> 0) /\
  (exists p,
     _gnrc_lwmac_ticks_to_phase 100000 (us_to_ticks_at 32768) 70000
     = Returns p /\
     0 <= p < INTERVAL 100000 (us_to_ticks_at 32768)) /\
  (exists p,
     _gnrc_lwmac_phase_now 100000 (us_to_ticks_at 32768) 70000 = Returns p /\
     0 <= p < INTERVAL 100000 (us_to_ticks_at 32768)).
Proof.
  assert (Hi : INTERVAL 100000 (us_to_ticks_at 32768) = 3276) by reflexivity.
  assert (H : 100000 <> 0 /\ INTERVAL 100000 (us_to_ticks_at 32768) <> 0)
    by (rewrite Hi; lia).
  split; [exact H|].
  destruct H as [Hus Hi0].
  exact (phase_within_interval 100000 (us_to_ticks_at 32768)
           70000 70000 Hus Hi0).
Defined.

(** On an LP64 host the difference never reads as negative: in the scenario
    of the specification the function returns [2^32 - 80000]. *)
Remark ticks_until_phase_long_64 :
  _gnrc_lwmac_ticks_until_phase 64 100000 (us_to_ticks_at 1000000) 90000 10000
  = Returns 4294887296.
Proof. vm_compute. reflexivity. Qed.

(** A zero configuration constant stops in the assertion. *)
Lemma zero_interval_asserts (RTT_US_TO_TICKS : Z -> Z) (long_bit ticks : Z) :
  _gnrc_lwmac_ticks_to_phase 0 RTT_US_TO_TICKS ticks = AssertionFailed /\
  _gnrc_lwmac_phase_now 0 RTT_US_TO_TICKS ticks = AssertionFailed /\
  _gnrc_lwmac_ticks_until_phase long_bit 0 RTT_US_TO_TICKS ticks ticks
  = AssertionFailed.
Proof. repeat split. Qed.

(** C9: the assertion tests the interval in microseconds, the modulo divides
    by the interval in ticks.  With the default 100000 us on a 1 Hz counter
    the constant is non-zero, the assertion passes, the interval is 0 ticks
    and all three functions divide by zero. *)
Theorem nonzero_interval_divides_by_zero (ticks counter phase : Z) :
  100000 <> 0 /\
  INTERVAL 100000 (us_to_ticks_at 1) = 0 /\
  _gnrc_lwmac_ticks_to_phase 100000 (us_to_ticks_at 1) ticks
  = DivisionByZero /\
  _gnrc_lwmac_phase_now 100000 (us_to_ticks_at 1) counter = DivisionByZero /\
  _gnrc_lwmac_ticks_until_phase 32 100000 (us_to_ticks_at 1) counter phase
  = DivisionByZero.
Proof.
  split; [discriminate|]. repeat split.
Qed.

(** ** Protocol flag registers *)

(** *** Masks on a register of [w] bits *)

Lemma land_to_unsigned (w x m : Z) :
  0 <= w -> 0 <= m < 2 ^ w -> Z.land (to_unsigned w x) m = Z.land x m.
Proof.
  intros Hw Hm. unfold to_unsigned.
  rewrite <- Z.land_ones by assumption.
  rewrite <- Z.land_assoc. f_equal.
  rewrite Z.land_comm, Z.land_ones by assumption.
  now apply Z.mod_small.
Qed.

Lemma disjoint_bits (m1 m2 n : Z) :
  Z.land m1 m2 = 0 -> Z.testbit m1 n && Z.testbit m2 n = false.
Proof.
  intros H. rewrite <- Z.land_spec, H. apply Z.bits_0.
Qed.

Lemma land_lor_same (x m : Z) : Z.land (Z.lor x m) m = m.
Proof.
  apply Z.bits_inj'. intros n _.
  rewrite Z.land_spec, Z.lor_spec.
  destruct (Z.testbit x n), (Z.testbit m n); reflexivity.
Qed.

Lemma land_clear_same (x m : Z) : Z.land (Z.land x (Z.lnot m)) m = 0.
Proof.
  apply Z.bits_inj'. intros n Hn.
  rewrite !Z.land_spec, Z.lnot_spec, Z.bits_0 by assumption.
  destruct (Z.testbit x n), (Z.testbit m n); reflexivity.
Qed.

Lemma land_lor_other (x m1 m2 : Z) :
  Z.land m1 m2 = 0 -> Z.land (Z.lor x m1) m2 = Z.land x m2.
Proof.
  intros H. apply Z.bits_inj'. intros n _.
  pose proof (disjoint_bits m1 m2 n H) as Hn.
  rewrite !Z.land_spec, Z.lor_spec.
  destruct (Z.testbit x n), (Z.testbit m1 n), (Z.testbit m2 n);
    reflexivity || discriminate.
Qed.

Lemma land_clear_other (x m1 m2 : Z) :
  Z.land m1 m2 = 0 -> Z.land (Z.land x (Z.lnot m1)) m2 = Z.land x m2.
Proof.
  intros H. apply Z.bits_inj'. intros n Hpos.
  pose proof (disjoint_bits m1 m2 n H) as Hn.
  rewrite !Z.land_spec, Z.lnot_spec by assumption.
  destruct (Z.testbit x n), (Z.testbit m1 n), (Z.testbit m2 n);
    reflexivity || discriminate.
Qed.

(** Read-modify-write of mask [m] on a [w]-bit register, then a read through
    the same mask. *)
Lemma register_set_get (w m x : Z) (b : bool) :
  0 <= w -> 0 < m < 2 ^ w ->
  to_bool
    (Z.land (to_unsigned w (if b then Z.lor x m else Z.land x (Z.lnot m))) m)
  = b.
Proof.
  intros Hw Hm. rewrite land_to_unsigned by lia. unfold to_bool.
  destruct b.
  - rewrite land_lor_same. destruct (Z.eqb_spec m 0); [lia|reflexivity].
  - rewrite land_clear_same. reflexivity.
Qed.

(** The same write, then a read through a mask that shares no bit with it. *)
Lemma register_set_get_other (w m1 m2 x : Z) (b : bool) :
  0 <= w -> 0 <= m2 < 2 ^ w -> Z.land m1 m2 = 0 ->
  to_bool
    (Z.land (to_unsigned w (if b then Z.lor x m1 else Z.land x (Z.lnot m1))) m2)
  = to_bool (Z.land x m2).
Proof.
  intros Hw Hm Hdisjoint. rewrite land_to_unsigned by lia.
  destruct b.
  - now rewrite land_lor_other.
  - now rewrite land_clear_other.
Qed.

Section FlagRegisterFacts.

Variable GNRC_LWMAC_DUTYCYCLE_ACTIVE : Z.
Variable GNRC_LWMAC_NEEDS_RESCHEDULE : Z.

(** The two masks of the LWMAC register are non-zero, fit its 8 bits and
    share no bit. *)
Hypothesis dutycycle_active_mask : 0 < GNRC_LWMAC_DUTYCYCLE_ACTIVE < 2 ^ 8.
Hypothesis needs_reschedule_mask : 0 < GNRC_LWMAC_NEEDS_RESCHEDULE < 2 ^ 8.
Hypothesis lwmac_masks_disjoint :
  Z.land GNRC_LWMAC_DUTYCYCLE_ACTIVE GNRC_LWMAC_NEEDS_RESCHEDULE = 0.


Ltac unfold_accessors :=
  cbv [set_flag get_flag
       gnrc_netdev_lwmac_set_tx_continue gnrc_netdev_lwmac_get_tx_continue
       gnrc_netdev_lwmac_set_quit_tx gnrc_netdev_lwmac_get_quit_tx
       gnrc_netdev_lwmac_set_phase_backoff gnrc_netdev_lwmac_get_phase_backoff
       gnrc_netdev_lwmac_set_quit_rx gnrc_netdev_lwmac_get_quit_rx
       gnrc_netdev_lwmac_set_dutycycle_active
       gnrc_netdev_lwmac_get_dutycycle_active
       gnrc_netdev_lwmac_set_reschedule gnrc_netdev_lwmac_get_reschedule].

(** A setter's two branches store one conditional value. *)
Lemma store_mac_info_if (dev : gnrc_netdev_t) (b : bool) (x y : Z) :
  (if b then store_mac_info dev x else store_mac_info dev y)
  = store_mac_info dev (if b then x else y).
Proof. now destruct b. Qed.

Lemma store_lwmac_info_if (dev : gnrc_netdev_t) (b : bool) (x y : Z) :
  (if b then store_lwmac_info dev x else store_lwmac_info dev y)
  = store_lwmac_info dev (if b then x else y).
Proof. now destruct b. Qed.

(** C4: for each of the six flags, every device state and every boolean b,
    the get accessor returns b after the set accessor was called with b. *)
Theorem set_then_get (f : flag) (dev : gnrc_netdev_t) (b : bool) :
  get_flag GNRC_LWMAC_DUTYCYCLE_ACTIVE GNRC_LWMAC_NEEDS_RESCHEDULE f
    (set_flag GNRC_LWMAC_DUTYCYCLE_ACTIVE GNRC_LWMAC_NEEDS_RESCHEDULE f dev b)
  = b.
Proof.
  destruct f; unfold_accessors;
    rewrite ?store_mac_info_if, ?store_lwmac_info_if;
    cbn [store_mac_info store_lwmac_info mac_info lwmac lwmac_info];
    apply register_set_get;
    solve [ lia | assumption | vm_compute; split; reflexivity ].
Qed.

(** C5: for every device state, every boolean b and every pair of distinct
    flags among the six, the set accessor of the one leaves what the get
    accessor of the other returns unchanged, within a register and across
    the two. *)
Theorem set_preserves_other_flags (f g : flag) (dev : gnrc_netdev_t) (b : bool) :
  f <> g ->
  get_flag GNRC_LWMAC_DUTYCYCLE_ACTIVE GNRC_LWMAC_NEEDS_RESCHEDULE g
    (set_flag GNRC_LWMAC_DUTYCYCLE_ACTIVE GNRC_LWMAC_NEEDS_RESCHEDULE f dev b)
  = get_flag GNRC_LWMAC_DUTYCYCLE_ACTIVE GNRC_LWMAC_NEEDS_RESCHEDULE g dev.
Proof.
  intros Hfg.
  assert (Hswap : Z.land GNRC_LWMAC_NEEDS_RESCHEDULE GNRC_LWMAC_DUTYCYCLE_ACTIVE
                  = 0) by now rewrite Z.land_comm.
  destruct f, g; try (exfalso; apply Hfg; reflexivity);
    unfold_accessors;
    rewrite ?store_mac_info_if, ?store_lwmac_info_if;
    cbn [store_mac_info store_lwmac_info mac_info lwmac lwmac_info];
    first
      [ reflexivity
      | apply register_set_get_other;
        solve [ lia | assumption | vm_compute; split; congruence
              | reflexivity ] ].
Qed.

End FlagRegisterFacts.

Lemma set_then_get_example :
  (0 < 0x01 < 2 ^ 8 /\ 0 < 0x02 < 2 ^ 8) /\
  get_flag 0x01 0x02 NeedsReschedule
    (set_flag 0x01 0x02 NeedsReschedule
       {| mac_info := 0x0048; lwmac := {| lwmac_info := 0x01 |} |} true)
  = true.
Proof.
  assert (H : 0 < 0x01 < 2 ^ 8 /\ 0 < 0x02 < 2 ^ 8) by lia.
  split; [exact H|].
  destruct H as [Hactive Hresched].
  exact (set_then_get 0x01 0x02 Hactive Hresched NeedsReschedule
           {| mac_info := 0x0048; lwmac := {| lwmac_info := 0x01 |} |} true).
Defined.

Lemma set_preserves_other_flags_example :
  (0 < 0x01 < 2 ^ 8 /\ 0 < 0x02 < 2 ^ 8 /\ Z.land 0x01 0x02 = 0 /\
   DutycycleActive <> NeedsReschedule) /\
  get_flag 0x01 0x02 NeedsReschedule
    (set_flag 0x01 0x02 DutycycleActive
       {| mac_info := 0x0048; lwmac := {| lwmac_info := 0x03 |} |} false)
  = get_flag 0x01 0x02 NeedsReschedule
      {| mac_info := 0x0048; lwmac := {| lwmac_info := 0x03 |} |}.
Proof.
  assert (H : 0 < 0x01 < 2 ^ 8 /\ 0 < 0x02 < 2 ^ 8 /\ Z.land 0x01 0x02 = 0 /\
              DutycycleActive <> NeedsReschedule)
    by (repeat split; discriminate || lia || reflexivity).
  split; [exact H|].
  destruct H as [Hactive [Hresched [Hdisjoint Hdistinct]]].
  exact (set_preserves_other_flags 0x01 0x02 Hactive Hresched Hdisjoint
           DutycycleActive NeedsReschedule
           {| mac_info := 0x0048; lwmac := {| lwmac_info := 0x03 |} |} false
           Hdistinct).
Defined.

(** ** Dispatch deduplication buffer *)

Lemma bytes_eqb_refl (a : list byte) : bytes_eqb a a = true.
Proof.
  induction a as [|x a IH]; [reflexivity|].
  cbn. now rewrite (byte_dec_lb (eq_refl x)), IH.
Qed.

Section DispatchBufferFacts.

Variable signature : list byte -> Z.

Local Abbreviation duplicate := (is_duplicate signature).
Local Abbreviation holds := (holds_duplicate signature).
Local Abbreviation duplicates := (duplicate_count signature).
Local Abbreviation defer := (_gnrc_lwmac_dispatch_defer signature).

Lemma is_duplicate_refl (pkt : packet) : duplicate pkt pkt = true.
Proof.
  unfold is_duplicate. now rewrite bytes_eqb_refl, Z.eqb_refl.
Qed.

(** The test only looks at the originating address and the content. *)
Lemma holds_duplicate_same_content (first second : packet) :
  origin second = origin first ->
  content second = content first ->
  forall slot, holds second slot = holds first slot.
Proof.
  intros Ho Hc [stored|]; [|reflexivity].
  cbn. unfold is_duplicate. now rewrite Ho, Hc.
Qed.

Lemma scan_same_content
    (first second : packet) (buffer : list (option packet)) :
  origin second = origin first ->
  content second = content first ->
  existsb (holds second) buffer = existsb (holds first) buffer.
Proof.
  intros Ho Hc. induction buffer as [|slot rest IH]; [reflexivity|].
  cbn. now rewrite IH, (holds_duplicate_same_content first second Ho Hc).
Qed.

(** Inserting a packet keeps the capacity and adds one entry. *)
Lemma insert_free_shape (buffer buffer' : list (option packet)) (pkt : packet) :
  insert_free buffer pkt = Some buffer' ->
  length buffer' = length buffer /\
  stored_count buffer' = S (stored_count buffer).
Proof.
  revert buffer'. unfold stored_count.
  induction buffer as [|[stored|] rest IH]; intros buffer' H; cbn in H.
  - discriminate.
  - destruct (insert_free rest pkt) as [rest'|]; [|discriminate].
    injection H as <-. destruct (IH rest' eq_refl) as [Hlen Hcount].
    cbn. now rewrite Hlen, Hcount.
  - injection H as <-. cbn. auto.
Qed.

(** After an insertion into a buffer without a duplicate, the inserted
    packet is the one entry recognised as its duplicate. *)
Lemma insert_free_single (buffer buffer' : list (option packet)) (pkt : packet) :
  existsb (holds pkt) buffer = false ->
  insert_free buffer pkt = Some buffer' ->
  existsb (holds pkt) buffer' = true /\ duplicates buffer' pkt = 1%nat.
Proof.
  revert buffer'. unfold duplicate_count.
  induction buffer as [|[stored|] rest IH]; intros buffer' Hnone H; cbn in H.
  - discriminate.
  - cbn in Hnone. apply orb_false_iff in Hnone as [Hstored Hrest].
    destruct (insert_free rest pkt) as [rest'|]; [|discriminate].
    injection H as <-. destruct (IH rest' Hrest eq_refl) as [Hex Hcount].
    cbn. rewrite Hstored, Hex. auto.
  - injection H as <-. cbn in Hnone. cbn. rewrite is_duplicate_refl. cbn.
    split; [reflexivity|]. f_equal.
    clear IH. induction rest as [|slot rest IHrest]; [reflexivity|].
    cbn in Hnone. apply orb_false_iff in Hnone as [Hslot Hrest].
    cbn. rewrite Hslot. auto.
Qed.

(** A buffer whose slots are all taken has no room. *)
Lemma insert_free_full (buffer : list (option packet)) (pkt : packet) :
  stored_count buffer = length buffer -> insert_free buffer pkt = None.
Proof.
  intros H. apply filter_length_forallb in H.
  induction buffer as [|[stored|] rest IH]; cbn in *.
  - reflexivity.
  - now rewrite IH.
  - discriminate.
Qed.

Lemma no_duplicate_stored (buffer : list (option packet)) (pkt : packet) :
  (forall stored, In (Some stored) buffer -> duplicate stored pkt = false) ->
  existsb (holds pkt) buffer = false.
Proof.
  intros H. induction buffer as [|slot rest IH]; [reflexivity|].
  cbn. rewrite IH by (intros stored Hin; apply H; now right).
  destruct slot as [stored|]; cbn; [|reflexivity].
  rewrite H by now left. reflexivity.
Qed.

(** C6, amended: when a packet has been stored by a first submission and
    the same content is submitted again before delivery, the second submission
    reports a duplicate, the incoming packet is released and not stored,
    the slots and the number of stored entries are unchanged, and exactly
    one stored entry holds that content. *)
Theorem duplicate_submission_is_discarded
    (st st1 : dispatch_state) (first second : packet) :
  origin second = origin first ->
  content second = content first ->
  _gnrc_lwmac_dispatch_defer signature st first = (st1, Inserted) ->
  exists st2,
    _gnrc_lwmac_dispatch_defer signature st1 second
    = (st2, DuplicateDiscarded) /\
    slots st2 = slots st1 /\
    released st2 = second :: released st1 /\
    stored_count (slots st2) = stored_count (slots st1) /\
    duplicate_count signature (slots st2) first = 1%nat.
Proof.
  intros Ho Hc Hfirst. unfold _gnrc_lwmac_dispatch_defer in Hfirst.
  destruct (existsb (holds first) (slots st)) eqn:Hnone; [discriminate|].
  destruct (insert_free (slots st) first) as [buffer'|] eqn:Hins;
    [|discriminate].
  injection Hfirst as <-. cbn [slots released].
  destruct (insert_free_single _ _ _ Hnone Hins) as [Hex Hone].
  exists {| slots := buffer'; released := second :: released st |}.
  unfold _gnrc_lwmac_dispatch_defer. cbn [slots released].
  rewrite (scan_same_content first second buffer' Ho Hc).
  rewrite Hex. auto.
Qed.

(** C7: when every slot of the buffer is taken and no stored entry is a
    duplicate of the incoming packet, the call reports an error with a
    negative return value, evicts and modifies nothing, and neither stores
    nor releases the incoming packet. *)
Theorem full_buffer_rejects (st : dispatch_state) (pkt : packet) :
  stored_count (slots st) = length (slots st) ->
  (forall stored,
     In (Some stored) (slots st) -> is_duplicate signature stored pkt = false) ->
  _gnrc_lwmac_dispatch_defer signature st pkt = (st, BufferFull) /\
  defer_return_value (snd (_gnrc_lwmac_dispatch_defer signature st pkt)) < 0 /\
  slots (fst (_gnrc_lwmac_dispatch_defer signature st pkt)) = slots st /\
  released (fst (_gnrc_lwmac_dispatch_defer signature st pkt)) = released st.
Proof.
  intros Hfull Hfresh.
  assert (Hrun : defer st pkt = (st, BufferFull)).
  { unfold _gnrc_lwmac_dispatch_defer.
    rewrite (no_duplicate_stored _ _ Hfresh).
    now rewrite (insert_free_full _ _ Hfull). }
  rewrite Hrun. cbn. repeat split.
Qed.

End DispatchBufferFacts.

(** A two-slot buffer holding one packet from address 01; a packet from
    address 02 is submitted twice. *)
Lemma duplicate_submission_example :
  (origin (packet_from x02) = origin (packet_from x02) /\
   content (packet_from x02) = content (packet_from x02) /\
   _gnrc_lwmac_dispatch_defer length_signature one_of_two (packet_from x02)
   = (two_of_two, Inserted)) /\
  exists st2,
    _gnrc_lwmac_dispatch_defer length_signature two_of_two (packet_from x02)
    = (st2, DuplicateDiscarded) /\
    slots st2 = slots two_of_two /\
    released st2 = packet_from x02 :: released two_of_two /\
    stored_count (slots st2) = stored_count (slots two_of_two) /\
    duplicate_count length_signature (slots st2) (packet_from x02) = 1%nat.
Proof.
  assert (H : origin (packet_from x02) = origin (packet_from x02) /\
              content (packet_from x02) = content (packet_from x02) /\
              _gnrc_lwmac_dispatch_defer length_signature one_of_two
                (packet_from x02) = (two_of_two, Inserted))
    by (repeat split).
  split; [exact H|].
  destruct H as [Ho [Hc Hfirst]].
  exact (duplicate_submission_is_discarded length_signature
           one_of_two two_of_two (packet_from x02) (packet_from x02)
           Ho Hc Hfirst).
Defined.

(** A full two-slot buffer and a packet from a third address. *)
Lemma full_buffer_example :
  (stored_count (slots two_of_two) = length (slots two_of_two) /\
   (forall stored,
      In (Some stored) (slots two_of_two) ->
      is_duplicate length_signature stored (packet_from x03) = false)) /\
  _gnrc_lwmac_dispatch_defer length_signature two_of_two (packet_from x03)
  = (two_of_two, BufferFull) /\
  defer_return_value
    (snd (_gnrc_lwmac_dispatch_defer length_signature two_of_two
            (packet_from x03))) < 0 /\
  slots (fst (_gnrc_lwmac_dispatch_defer length_signature two_of_two
                (packet_from x03))) = slots two_of_two /\
  released (fst (_gnrc_lwmac_dispatch_defer length_signature two_of_two
                   (packet_from x03))) = released two_of_two.
Proof.
  assert (Hfull : stored_count (slots two_of_two) = length (slots two_of_two))
    by reflexivity.
  assert (Hfresh : forall stored,
             In (Some stored) (slots two_of_two) ->
             is_duplicate length_signature stored (packet_from x03) = false).
  { intros stored [H|[H|[]]]; injection H as <-; reflexivity. }
  split; [split; assumption|].
  exact (full_buffer_rejects length_signature two_of_two (packet_from x03)
           Hfull Hfresh).
Defined.

(** C6 as stated, for every buffer state, fails on a full buffer without a
    duplicate: both submissions of the packet from address 03 are answered
    with the full-buffer error, the second one is no duplicate outcome, and
    no entry holds that content. *)
Lemma resubmission_to_full_buffer :
  _gnrc_lwmac_dispatch_defer length_signature two_of_two (packet_from x03)
  = (two_of_two, BufferFull) /\
  _gnrc_lwmac_dispatch_defer length_signature
    (fst (_gnrc_lwmac_dispatch_defer length_signature two_of_two
            (packet_from x03)))
    (packet_from x03)
  = (two_of_two, BufferFull) /\
  BufferFull <> DuplicateDiscarded /\
  duplicate_count length_signature (slots two_of_two) (packet_from x03)
  = 0%nat.
Proof.
  split; [reflexivity|]. split; [reflexivity|].
  split; [discriminate|reflexivity].
Qed.

(** ** Packet parser *)

Section PacketParserFacts.

Variable MINIMUM_HEADER_SIZE : nat.
Variable MAXIMUM_ADDRESS_LENGTH : nat.
Variable recognise_header : list byte -> option header_shape.

Local Abbreviation parse_packet :=
  (_gnrc_lwmac_parse_packet
     MINIMUM_HEADER_SIZE MAXIMUM_ADDRESS_LENGTH recognise_header).

Lemma parse_error_code_negative (e : parse_error) : parse_error_code e < 0.
Proof. destruct e; cbn; lia. Qed.

(** Whatever the reason, a failed parse leaves the record as it was. *)
Lemma parse_failure_leaves_info
    (pkt : list byte) (info : gnrc_lwmac_packet_info_t) :
  fst (parse_packet pkt info) <> 0 -> snd (parse_packet pkt info) = info.
Proof.
  unfold _gnrc_lwmac_parse_packet.
  destruct (parse _ _ _ pkt) as [e|parsed]; cbn; [reflexivity|].
  intros H. now contradiction H.
Qed.

Lemma malformed_is_error (pkt : list byte) :
  malformed MINIMUM_HEADER_SIZE recognise_header pkt ->
  exists e,
    parse MINIMUM_HEADER_SIZE MAXIMUM_ADDRESS_LENGTH recognise_header pkt
    = inl e.
Proof.
  intros [Hshort|Hshape]; unfold parse.
  - apply Nat.ltb_lt in Hshort. rewrite Hshort. now eexists.
  - destruct (_ <? _)%nat; [now eexists|]. rewrite Hshape. now eexists.
Qed.

(** C8: for every packet shorter than the minimum header, and for every
    packet whose header is not recognised, the parser returns a negative
    value and writes nothing into the record: it is as it was, and so are
    its source and destination addresses. *)
Theorem malformed_packet_is_rejected
    (pkt : list byte) (info : gnrc_lwmac_packet_info_t) :
  malformed MINIMUM_HEADER_SIZE recognise_header pkt ->
  fst (_gnrc_lwmac_parse_packet MINIMUM_HEADER_SIZE MAXIMUM_ADDRESS_LENGTH
         recognise_header pkt info) < 0 /\
  snd (_gnrc_lwmac_parse_packet MINIMUM_HEADER_SIZE MAXIMUM_ADDRESS_LENGTH
         recognise_header pkt info) = info /\
  src_addr (snd (_gnrc_lwmac_parse_packet MINIMUM_HEADER_SIZE
                   MAXIMUM_ADDRESS_LENGTH recognise_header pkt info))
  = src_addr info /\
  dst_addr (snd (_gnrc_lwmac_parse_packet MINIMUM_HEADER_SIZE
                   MAXIMUM_ADDRESS_LENGTH recognise_header pkt info))
  = dst_addr info.
Proof.
  intros Hbad. destruct (malformed_is_error pkt Hbad) as [e He].
  unfold _gnrc_lwmac_parse_packet. rewrite He. cbn.
  repeat split. apply parse_error_code_negative.
Qed.

End PacketParserFacts.

(** A one-byte packet against a two-byte minimum header. *)
Lemma malformed_packet_example :
  malformed 2 recognise_nothing [x01] /\
  fst (_gnrc_lwmac_parse_packet 2 8 recognise_nothing [x01] unset_info) < 0 /\
  snd (_gnrc_lwmac_parse_packet 2 8 recognise_nothing [x01] unset_info)
  = unset_info /\
  src_addr (snd (_gnrc_lwmac_parse_packet 2 8 recognise_nothing [x01]
                   unset_info))
  = src_addr unset_info /\
  dst_addr (snd (_gnrc_lwmac_parse_packet 2 8 recognise_nothing [x01]
                   unset_info))
  = dst_addr unset_info.
Proof.
  assert (H : malformed 2 recognise_nothing [x01]) by (left; cbn; lia).
  split; [exact H|].
  exact (malformed_packet_is_rejected 2 8 recognise_nothing [x01]
           unset_info H).
Defined.

(** * Further properties *)

(** ** Read-modify-write on a register *)

(** Bit [n] of a [w]-bit register after the write of mask [m]. *)
Lemma register_write_bits (w m x n : Z) (b : bool) :
  0 <= w ->
  Z.testbit
    (to_unsigned w (if b then Z.lor x m else Z.land x (Z.lnot m))) n
  = (n <? w)
    && (if b then Z.testbit x n || Z.testbit m n
        else Z.testbit x n && negb (Z.testbit m n)).
Proof.
  intros Hw. unfold to_unsigned. rewrite Z.testbit_mod_pow2 by assumption.
  destruct (Z.ltb_spec n 0) as [Hneg|Hpos].
  - rewrite !(Z.testbit_neg_r _ n) by assumption.
    destruct b; now rewrite ?andb_false_r.
  - destruct b.
    + now rewrite Z.lor_spec.
    + now rewrite Z.land_spec, Z.lnot_spec.
Qed.

Lemma register_write_twice (w m x : Z) (b c : bool) :
  0 <= w ->
  to_unsigned w
    (if b
     then Z.lor (to_unsigned w (if c then Z.lor x m
                                else Z.land x (Z.lnot m))) m
     else Z.land (to_unsigned w (if c then Z.lor x m
                                 else Z.land x (Z.lnot m))) (Z.lnot m))
  = to_unsigned w (if b then Z.lor x m else Z.land x (Z.lnot m)).
Proof.
  intros Hw. apply Z.bits_inj'. intros n _.
  rewrite !register_write_bits by assumption.
  destruct b, c, (n <? w), (Z.testbit x n), (Z.testbit m n); reflexivity.
Qed.

Lemma register_write_commute (w m1 m2 x : Z) (b c : bool) :
  0 <= w -> Z.land m1 m2 = 0 ->
  to_unsigned w
    (if c
     then Z.lor (to_unsigned w (if b then Z.lor x m1
                                else Z.land x (Z.lnot m1))) m2
     else Z.land (to_unsigned w (if b then Z.lor x m1
                                 else Z.land x (Z.lnot m1))) (Z.lnot m2))
  = to_unsigned w
      (if b
       then Z.lor (to_unsigned w (if c then Z.lor x m2
                                  else Z.land x (Z.lnot m2))) m1
       else Z.land (to_unsigned w (if c then Z.lor x m2
                                   else Z.land x (Z.lnot m2))) (Z.lnot m1)).
Proof.
  intros Hw Hdisjoint. apply Z.bits_inj'. intros n _.
  pose proof (disjoint_bits m1 m2 n Hdisjoint) as Hn.
  rewrite !register_write_bits by assumption.
  destruct b, c, (n <? w), (Z.testbit x n), (Z.testbit m1 n),
    (Z.testbit m2 n); reflexivity || discriminate.
Qed.

(** Reading through a one-bit mask is reading that bit. *)
Lemma to_bool_land_pow2 (x k : Z) :
  0 <= k -> to_bool (Z.land x (2 ^ k)) = Z.testbit x k.
Proof.
  intros Hk. unfold to_bool.
  destruct (Z.testbit x k) eqn:Hbit.
  - destruct (Z.eqb_spec (Z.land x (2 ^ k)) 0) as [Hzero|]; [|reflexivity].
    assert (H : Z.testbit (Z.land x (2 ^ k)) k = false)
      by (rewrite Hzero; apply Z.bits_0).
    rewrite Z.land_spec, Hbit, Z.pow2_bits_eqb, Z.eqb_refl in H by assumption.
    discriminate.
  - replace (Z.land x (2 ^ k)) with 0; [reflexivity|].
    symmetry. apply Z.bits_inj'. intros n _.
    rewrite Z.land_spec, Z.pow2_bits_eqb, Z.bits_0 by assumption.
    destruct (Z.eqb_spec k n) as [<-|]; [now rewrite Hbit|].
    apply andb_false_r.
Qed.

(** Writing back what a one-bit mask reads changes nothing. *)
Lemma register_write_back (w k x : Z) :
  0 <= k < w -> 0 <= x < 2 ^ w ->
  to_unsigned w
    (if to_bool (Z.land x (2 ^ k)) then Z.lor x (2 ^ k)
     else Z.land x (Z.lnot (2 ^ k)))
  = x.
Proof.
  intros Hk Hx.
  rewrite <- (Z.mod_small x (2 ^ w)) at 4 by assumption.
  rewrite to_bool_land_pow2 by lia.
  apply Z.bits_inj'. intros n _.
  rewrite register_write_bits, Z.testbit_mod_pow2, Z.pow2_bits_eqb by lia.
  destruct (Z.eqb_spec k n) as [<-|Hkn].
  - destruct (Z.testbit x k), (k <? w); reflexivity.
  - destruct (Z.testbit x k), (n <? w), (Z.testbit x n); reflexivity.
Qed.

(** ** The flag accessors as operations on the device *)

Section FlagRegisterAlgebra.

Variable GNRC_LWMAC_DUTYCYCLE_ACTIVE : Z.
Variable GNRC_LWMAC_NEEDS_RESCHEDULE : Z.

Ltac open_accessors :=
  cbv [set_flag get_flag flag_mask flag_register other_register
       register_bits in_lwmac_info
       gnrc_netdev_lwmac_set_tx_continue gnrc_netdev_lwmac_get_tx_continue
       gnrc_netdev_lwmac_set_quit_tx gnrc_netdev_lwmac_get_quit_tx
       gnrc_netdev_lwmac_set_phase_backoff gnrc_netdev_lwmac_get_phase_backoff
       gnrc_netdev_lwmac_set_quit_rx gnrc_netdev_lwmac_get_quit_rx
       gnrc_netdev_lwmac_set_dutycycle_active
       gnrc_netdev_lwmac_get_dutycycle_active
       gnrc_netdev_lwmac_set_reschedule gnrc_netdev_lwmac_get_reschedule]
    in *;
  rewrite ?store_mac_info_if, ?store_lwmac_info_if;
  unfold store_mac_info, store_lwmac_info, to_uint16, to_uint8;
  cbn [mac_info lwmac lwmac_info].

(** A setter changes no bit of its register outside its mask, and leaves
    the other register alone. *)
Theorem set_flag_keeps_other_bits
    (f : flag) (dev : gnrc_netdev_t) (b : bool) (n : Z) :
  0 <= n < register_bits f ->
  Z.testbit
    (flag_mask GNRC_LWMAC_DUTYCYCLE_ACTIVE GNRC_LWMAC_NEEDS_RESCHEDULE f) n
  = false ->
  Z.testbit
    (flag_register f
       (set_flag GNRC_LWMAC_DUTYCYCLE_ACTIVE GNRC_LWMAC_NEEDS_RESCHEDULE
          f dev b)) n
  = Z.testbit (flag_register f dev) n /\
  other_register f
    (set_flag GNRC_LWMAC_DUTYCYCLE_ACTIVE GNRC_LWMAC_NEEDS_RESCHEDULE f dev b)
  = other_register f dev.
Proof.
  intros Hn Hmask.
  destruct f; open_accessors; (split; [|reflexivity]);
    rewrite register_write_bits, Hmask by lia; clear Hmask;
    match goal with
    | |- context [n <? ?w] =>
        replace (n <? w) with true by (symmetry; apply Z.ltb_lt; lia)
    end;
    destruct b; cbn [andb negb]; now rewrite ?orb_false_r, ?andb_true_r.
Qed.

(** Of two writes to the same flag the second one decides. *)
Theorem set_flag_last_write_wins
    (f : flag) (dev : gnrc_netdev_t) (b c : bool) :
  set_flag GNRC_LWMAC_DUTYCYCLE_ACTIVE GNRC_LWMAC_NEEDS_RESCHEDULE f
    (set_flag GNRC_LWMAC_DUTYCYCLE_ACTIVE GNRC_LWMAC_NEEDS_RESCHEDULE f dev c)
    b
  = set_flag GNRC_LWMAC_DUTYCYCLE_ACTIVE GNRC_LWMAC_NEEDS_RESCHEDULE f dev b.
Proof.
  destruct f; open_accessors;
    rewrite register_write_twice by lia; reflexivity.
Qed.

(** Writes to two different flags can be done in either order. *)
Theorem set_flag_commute
    (f g : flag) (dev : gnrc_netdev_t) (b c : bool) :
  f <> g ->
  Z.land GNRC_LWMAC_DUTYCYCLE_ACTIVE GNRC_LWMAC_NEEDS_RESCHEDULE = 0 ->
  set_flag GNRC_LWMAC_DUTYCYCLE_ACTIVE GNRC_LWMAC_NEEDS_RESCHEDULE g
    (set_flag GNRC_LWMAC_DUTYCYCLE_ACTIVE GNRC_LWMAC_NEEDS_RESCHEDULE f dev b)
    c
  = set_flag GNRC_LWMAC_DUTYCYCLE_ACTIVE GNRC_LWMAC_NEEDS_RESCHEDULE f
      (set_flag GNRC_LWMAC_DUTYCYCLE_ACTIVE GNRC_LWMAC_NEEDS_RESCHEDULE
         g dev c)
      b.
Proof.
  intros Hfg Hdisjoint.
  assert (Hswap : Z.land GNRC_LWMAC_NEEDS_RESCHEDULE GNRC_LWMAC_DUTYCYCLE_ACTIVE
                  = 0) by now rewrite Z.land_comm.
  destruct f, g; try (exfalso; apply Hfg; reflexivity);
    open_accessors;
    first
      [ reflexivity
      | rewrite register_write_commute
          by solve [ lia | assumption | reflexivity ];
        reflexivity ].
Qed.

(** With one-bit masks, writing a flag to the value it already has leaves
    the device as it is. *)
Theorem set_flag_to_current_value
    (f : flag) (dev : gnrc_netdev_t) (i j : Z) :
  registers_in_range dev ->
  0 <= i < 8 -> GNRC_LWMAC_DUTYCYCLE_ACTIVE = 2 ^ i ->
  0 <= j < 8 -> GNRC_LWMAC_NEEDS_RESCHEDULE = 2 ^ j ->
  set_flag GNRC_LWMAC_DUTYCYCLE_ACTIVE GNRC_LWMAC_NEEDS_RESCHEDULE f dev
    (get_flag GNRC_LWMAC_DUTYCYCLE_ACTIVE GNRC_LWMAC_NEEDS_RESCHEDULE f dev)
  = dev.
Proof.
  intros [Hmac Hlwmac] Hi -> Hj ->.
  destruct dev as [mac [info]]. cbn [mac_info lwmac lwmac_info] in *.
  destruct f; open_accessors.
  - change GNRC_NETDEV_LWMAC_TX_CONTINUE with (2 ^ 3).
    now rewrite register_write_back by lia.
  - change GNRC_NETDEV_LWMAC_QUIT_TX with (2 ^ 4).
    now rewrite register_write_back by lia.
  - change GNRC_NETDEV_LWMAC_PHASE_BACKOFF with (2 ^ 5).
    now rewrite register_write_back by lia.
  - change GNRC_NETDEV_LWMAC_QUIT_RX with (2 ^ 6).
    now rewrite register_write_back by lia.
  - now rewrite register_write_back by lia.
  - now rewrite register_write_back by lia.
Qed.

End FlagRegisterAlgebra.

(** ** The phase clock along the counter *)

(** The sum of a phase and the distance to a target phase is the target
    phase modulo the interval. *)
Lemma distance_lands (interval now phase : Z) :
  0 <= now < interval -> 0 <= phase < interval ->
  (now + (if phase - now <? 0 then phase - now + interval else phase - now))
    mod interval
  = phase.
Proof.
  intros Hnow Hp. destruct (Z.ltb_spec (phase - now) 0).
  - replace (now + (phase - now + interval)) with (phase + 1 * interval)
      by lia.
    rewrite Z.mod_add by lia. apply Z.mod_small. lia.
  - replace (now + (phase - now)) with phase by lia.
    apply Z.mod_small. lia.
Qed.

(** Reduction of a sum that went once around. *)
Lemma mod_once_around (interval x : Z) :
  interval <= x < 2 * interval -> x mod interval = x - interval.
Proof.
  intros H. symmetry. apply Z.mod_unique with (q := 1); lia.
Qed.

Lemma to_signed64_uint32 (x : Z) : 0 <= x < 2 ^ 32 -> to_signed 64 x = x.
Proof.
  intros H. unfold to_signed. cbv zeta.
  rewrite Z.mod_small by lia.
  change (64 - 1) with 63.
  destruct (Z.ltb_spec x (2 ^ 63)); lia.
Qed.

Section PhaseClockAlgebra.

Variable GNRC_LWMAC_WAKEUP_INTERVAL_US : Z.
Variable RTT_US_TO_TICKS : Z -> Z.

Local Abbreviation interval :=
  (INTERVAL GNRC_LWMAC_WAKEUP_INTERVAL_US RTT_US_TO_TICKS).
Local Abbreviation phase_of :=
  (_gnrc_lwmac_ticks_to_phase GNRC_LWMAC_WAKEUP_INTERVAL_US RTT_US_TO_TICKS).
Local Abbreviation phase_at :=
  (_gnrc_lwmac_phase_now GNRC_LWMAC_WAKEUP_INTERVAL_US RTT_US_TO_TICKS).
Local Abbreviation ticks_until long_bit :=
  (_gnrc_lwmac_ticks_until_phase long_bit
     GNRC_LWMAC_WAKEUP_INTERVAL_US RTT_US_TO_TICKS).

Lemma phase_at_small (counter : Z) :
  GNRC_LWMAC_WAKEUP_INTERVAL_US <> 0 ->
  interval <> 0 ->
  0 <= counter < 2 ^ 32 ->
  phase_at counter = Returns (counter mod interval).
Proof.
  intros Hus Hticks Hc.
  rewrite phase_now_returns by assumption.
  now rewrite !(to_uint32_small counter) by lia.
Qed.

(** The phase repeats with the interval, as long as the counter value stays
    within 32 bits. *)
Theorem phase_repeats (ticks k : Z) :
  GNRC_LWMAC_WAKEUP_INTERVAL_US <> 0 ->
  INTERVAL GNRC_LWMAC_WAKEUP_INTERVAL_US RTT_US_TO_TICKS <> 0 ->
  0 <= ticks -> 0 <= k ->
  ticks + k * INTERVAL GNRC_LWMAC_WAKEUP_INTERVAL_US RTT_US_TO_TICKS
  < 2 ^ 32 ->
  _gnrc_lwmac_ticks_to_phase GNRC_LWMAC_WAKEUP_INTERVAL_US RTT_US_TO_TICKS
    (ticks + k * INTERVAL GNRC_LWMAC_WAKEUP_INTERVAL_US RTT_US_TO_TICKS)
  = _gnrc_lwmac_ticks_to_phase GNRC_LWMAC_WAKEUP_INTERVAL_US RTT_US_TO_TICKS
      ticks.
Proof.
  intros Hus Hticks Ht Hk Hfit.
  pose proof INTERVAL_range GNRC_LWMAC_WAKEUP_INTERVAL_US RTT_US_TO_TICKS.
  rewrite !ticks_to_phase_returns by assumption.
  rewrite !to_uint32_small by nia.
  now rewrite Z.mod_add.
Qed.

(** A phase is its own phase: reducing twice is reducing once. *)
Theorem phase_of_phase (ticks : Z) :
  GNRC_LWMAC_WAKEUP_INTERVAL_US <> 0 ->
  INTERVAL GNRC_LWMAC_WAKEUP_INTERVAL_US RTT_US_TO_TICKS <> 0 ->
  exists p,
    _gnrc_lwmac_ticks_to_phase GNRC_LWMAC_WAKEUP_INTERVAL_US RTT_US_TO_TICKS
      ticks = Returns p /\
    _gnrc_lwmac_ticks_to_phase GNRC_LWMAC_WAKEUP_INTERVAL_US RTT_US_TO_TICKS
      p = Returns p.
Proof.
  intros Hus Hticks.
  pose proof INTERVAL_range GNRC_LWMAC_WAKEUP_INTERVAL_US RTT_US_TO_TICKS.
  pose proof (phase_range GNRC_LWMAC_WAKEUP_INTERVAL_US RTT_US_TO_TICKS
                ticks Hticks) as Hp.
  exists (to_uint32 ticks mod interval).
  rewrite !ticks_to_phase_returns by assumption.
  split; [reflexivity|]. f_equal.
  rewrite to_uint32_small by lia. apply Z.mod_small. lia.
Qed.

(** Waiting the returned number of ticks brings the counter to the target
    phase, if the counter does not pass [2^32] on the way or the interval
    divides [2^32]. *)
Theorem ticks_until_phase_reaches_target (long_bit counter phase : Z) :
  long_bit = 32 ->
  GNRC_LWMAC_WAKEUP_INTERVAL_US <> 0 ->
  0 < INTERVAL GNRC_LWMAC_WAKEUP_INTERVAL_US RTT_US_TO_TICKS <= 2 ^ 31 ->
  0 <= phase < INTERVAL GNRC_LWMAC_WAKEUP_INTERVAL_US RTT_US_TO_TICKS ->
  exists ticks,
    _gnrc_lwmac_ticks_until_phase long_bit
      GNRC_LWMAC_WAKEUP_INTERVAL_US RTT_US_TO_TICKS counter phase
    = Returns ticks /\
    ((0 <= counter /\ counter + ticks < 2 ^ 32) \/
     2 ^ 32 mod INTERVAL GNRC_LWMAC_WAKEUP_INTERVAL_US RTT_US_TO_TICKS = 0 ->
     _gnrc_lwmac_phase_now GNRC_LWMAC_WAKEUP_INTERVAL_US RTT_US_TO_TICKS
       (counter + ticks)
     = Returns phase).
Proof.
  intros -> Hus Hi Hp.
  set (now := to_uint32 (to_uint32 counter) mod interval).
  assert (Hnow : 0 <= now < interval) by (apply phase_range; lia).
  set (ticks := if phase - now <? 0 then phase - now + interval
                else phase - now).
  assert (Hticks : 0 <= ticks < interval)
    by (subst ticks; destruct (Z.ltb_spec (phase - now) 0); lia).
  exists ticks. split; [now apply ticks_until_phase_32_exact|].
  intros Hcase. rewrite phase_now_returns by lia. f_equal.
  rewrite <- (distance_lands interval now phase Hnow Hp). fold ticks.
  destruct Hcase as [[Hc Hfit]|Hdiv].
  - subst now. rewrite !(to_uint32_small counter) by lia.
    rewrite !(to_uint32_small (counter + ticks)) by lia.
    now rewrite Z.add_mod_idemp_l by lia.
  - assert (Hfold : forall x, to_uint32 x mod interval = x mod interval).
    { intros x. unfold to_uint32, to_unsigned.
      apply Z.mod_mod_divide. apply Z.mod_divide; [lia|assumption]. }
    subst now. rewrite !Hfold.
    now rewrite Z.add_mod_idemp_l by lia.
Qed.

(** While the counter advances towards the target phase, the returned
    number of ticks goes down by as much. *)
Theorem ticks_until_phase_counts_down (long_bit counter phase k : Z) :
  long_bit = 32 ->
  GNRC_LWMAC_WAKEUP_INTERVAL_US <> 0 ->
  0 < INTERVAL GNRC_LWMAC_WAKEUP_INTERVAL_US RTT_US_TO_TICKS <= 2 ^ 31 ->
  0 <= phase < INTERVAL GNRC_LWMAC_WAKEUP_INTERVAL_US RTT_US_TO_TICKS ->
  0 <= counter -> 0 <= k -> counter + k < 2 ^ 32 ->
  exists ticks,
    _gnrc_lwmac_ticks_until_phase long_bit
      GNRC_LWMAC_WAKEUP_INTERVAL_US RTT_US_TO_TICKS counter phase
    = Returns ticks /\
    (k <= ticks ->
     _gnrc_lwmac_ticks_until_phase long_bit
       GNRC_LWMAC_WAKEUP_INTERVAL_US RTT_US_TO_TICKS (counter + k) phase
     = Returns (ticks - k)).
Proof.
  intros -> Hus Hi Hp Hc Hk Hfit.
  rewrite !ticks_until_phase_32_exact by assumption. cbv zeta.
  rewrite !(to_uint32_small counter), !(to_uint32_small (counter + k)) by lia.
  rewrite <- (Z.add_mod_idemp_l counter k) by lia.
  assert (Hnow : 0 <= counter mod interval < interval)
    by (apply Z.mod_pos_bound; lia).
  set (now := counter mod interval) in *.
  eexists. split; [reflexivity|]. intros Hle. f_equal.
  destruct (Z.ltb_spec (phase - now) 0) as [Hbehind|Hahead].
  - destruct (Z.lt_ge_cases (now + k) interval) as [Hin|Hout].
    + rewrite (Z.mod_small (now + k)) by lia.
      destruct (Z.ltb_spec (phase - (now + k)) 0); lia.
    + rewrite mod_once_around by lia.
      destruct (Z.ltb_spec (phase - (now + k - interval)) 0); lia.
  - rewrite (Z.mod_small (now + k)) by lia.
    destruct (Z.ltb_spec (phase - (now + k)) 0); lia.
Qed.

(** From one phase to another and back takes one interval, or nothing when
    the two phases are the same. *)
Theorem ticks_until_phase_there_and_back (long_bit here there : Z) :
  long_bit = 32 ->
  GNRC_LWMAC_WAKEUP_INTERVAL_US <> 0 ->
  0 < INTERVAL GNRC_LWMAC_WAKEUP_INTERVAL_US RTT_US_TO_TICKS <= 2 ^ 31 ->
  exists a b forth back,
    _gnrc_lwmac_phase_now GNRC_LWMAC_WAKEUP_INTERVAL_US RTT_US_TO_TICKS here
    = Returns a /\
    _gnrc_lwmac_phase_now GNRC_LWMAC_WAKEUP_INTERVAL_US RTT_US_TO_TICKS there
    = Returns b /\
    _gnrc_lwmac_ticks_until_phase long_bit
      GNRC_LWMAC_WAKEUP_INTERVAL_US RTT_US_TO_TICKS here b = Returns forth /\
    _gnrc_lwmac_ticks_until_phase long_bit
      GNRC_LWMAC_WAKEUP_INTERVAL_US RTT_US_TO_TICKS there a = Returns back /\
    forth + back
    = (if a =? b then 0
       else INTERVAL GNRC_LWMAC_WAKEUP_INTERVAL_US RTT_US_TO_TICKS).
Proof.
  intros -> Hus Hi.
  set (a := to_uint32 (to_uint32 here) mod interval).
  set (b := to_uint32 (to_uint32 there) mod interval).
  assert (Ha : 0 <= a < interval) by (apply phase_range; lia).
  assert (Hb : 0 <= b < interval) by (apply phase_range; lia).
  exists a, b. do 2 eexists.
  split; [apply phase_now_returns; lia|].
  split; [apply phase_now_returns; lia|].
  split; [now apply ticks_until_phase_32_exact|].
  split; [now apply ticks_until_phase_32_exact|].
  fold a b.
  destruct (Z.eqb_spec a b), (Z.ltb_spec (b - a) 0), (Z.ltb_spec (a - b) 0);
    lia.
Qed.

(** With a 32-bit [long] the target is not reduced to a phase first: a
    target at most [2^31 - 1] ticks ahead of the current phase gives that
    distance, also when the target is beyond the interval. *)
Theorem ticks_until_phase_unreduced_target (long_bit counter phase : Z) :
  long_bit = 32 ->
  GNRC_LWMAC_WAKEUP_INTERVAL_US <> 0 ->
  INTERVAL GNRC_LWMAC_WAKEUP_INTERVAL_US RTT_US_TO_TICKS <> 0 ->
  0 <= phase < 2 ^ 32 ->
  exists now,
    _gnrc_lwmac_phase_now GNRC_LWMAC_WAKEUP_INTERVAL_US RTT_US_TO_TICKS
      counter = Returns now /\
    (now <= phase < now + 2 ^ 31 ->
     _gnrc_lwmac_ticks_until_phase long_bit
       GNRC_LWMAC_WAKEUP_INTERVAL_US RTT_US_TO_TICKS counter phase
     = Returns (phase - now)).
Proof.
  intros -> Hus Hticks Hp.
  eexists. split; [now apply phase_now_returns|]. intros Hahead.
  unfold _gnrc_lwmac_ticks_until_phase.
  rewrite phase_now_returns by assumption. cbn [bind].
  set (now := to_uint32 (to_uint32 counter) mod interval) in *.
  unfold phase_difference.
  rewrite (to_uint32_small phase), (to_uint32_small (phase - now)) by lia.
  rewrite to_signed32_low by lia.
  destruct (Z.ltb_spec (phase - now) 0); [lia|].
  now rewrite to_uint32_small by lia.
Qed.

(** With a 64-bit [long] the difference is never negative and the interval
    is never added: a target behind the current phase gives the difference
    plus [2^32]. *)
Theorem ticks_until_phase_wide_long (long_bit counter phase : Z) :
  long_bit = 64 ->
  GNRC_LWMAC_WAKEUP_INTERVAL_US <> 0 ->
  INTERVAL GNRC_LWMAC_WAKEUP_INTERVAL_US RTT_US_TO_TICKS <> 0 ->
  0 <= phase < 2 ^ 32 ->
  exists now,
    _gnrc_lwmac_phase_now GNRC_LWMAC_WAKEUP_INTERVAL_US RTT_US_TO_TICKS
      counter = Returns now /\
    _gnrc_lwmac_ticks_until_phase long_bit
      GNRC_LWMAC_WAKEUP_INTERVAL_US RTT_US_TO_TICKS counter phase
    = Returns (if phase <? now then phase - now + 2 ^ 32 else phase - now).
Proof.
  intros -> Hus Hticks Hp.
  pose proof INTERVAL_range GNRC_LWMAC_WAKEUP_INTERVAL_US RTT_US_TO_TICKS
    as Hi.
  eexists. split; [now apply phase_now_returns|].
  unfold _gnrc_lwmac_ticks_until_phase.
  rewrite phase_now_returns by assumption. cbn [bind].
  set (now := to_uint32 (to_uint32 counter) mod interval).
  assert (Hnow : 0 <= now < interval) by (apply phase_range; lia).
  unfold phase_difference. rewrite (to_uint32_small phase) by lia.
  pose proof (to_uint32_range (phase - now)) as Hd.
  rewrite to_signed64_uint32 by assumption.
  destruct (Z.ltb_spec (to_uint32 (phase - now)) 0); [lia|].
  rewrite to_uint32_small by assumption. f_equal.
  destruct (Z.ltb_spec phase now).
  - apply to_uint32_borrow. lia.
  - apply to_uint32_small. lia.
Qed.

End PhaseClockAlgebra.

(** ** Examples *)

(** Setting quit-TX on the sample device leaves the RX-started bit (bit 2 of
    [mac_info]) as it is. *)
Lemma set_flag_keeps_other_bits_example :
  (0 <= 2 < register_bits QuitTx /\
   Z.testbit (flag_mask 0x01 0x02 QuitTx) 2 = false) /\
  Z.testbit
    (flag_register QuitTx (set_flag 0x01 0x02 QuitTx sample_device true)) 2
  = Z.testbit (flag_register QuitTx sample_device) 2 /\
  other_register QuitTx (set_flag 0x01 0x02 QuitTx sample_device true)
  = other_register QuitTx sample_device.
Proof.
  assert (H : 0 <= 2 < register_bits QuitTx /\
              Z.testbit (flag_mask 0x01 0x02 QuitTx) 2 = false)
    by (split; [cbn; lia|reflexivity]).
  split; [exact H|].
  destruct H as [Hn Hmask].
  exact (set_flag_keeps_other_bits 0x01 0x02 QuitTx sample_device true 2
           Hn Hmask).
Defined.

Lemma set_flag_commute_example :
  (PhaseBackoff <> QuitRx /\ Z.land 0x01 0x02 = 0) /\
  set_flag 0x01 0x02 QuitRx
    (set_flag 0x01 0x02 PhaseBackoff sample_device true) false
  = set_flag 0x01 0x02 PhaseBackoff
      (set_flag 0x01 0x02 QuitRx sample_device false) true.
Proof.
  assert (H : PhaseBackoff <> QuitRx /\ Z.land 0x01 0x02 = 0)
    by (split; [discriminate|reflexivity]).
  split; [exact H|].
  destruct H as [Hfg Hdisjoint].
  exact (set_flag_commute 0x01 0x02 PhaseBackoff QuitRx sample_device
           true false Hfg Hdisjoint).
Defined.

Lemma set_flag_to_current_value_example :
  (registers_in_range sample_device /\
   0 <= 0 < 8 /\ 0x01 = 2 ^ 0 /\ 0 <= 1 < 8 /\ 0x02 = 2 ^ 1) /\
  set_flag 0x01 0x02 QuitRx sample_device
    (get_flag 0x01 0x02 QuitRx sample_device)
  = sample_device.
Proof.
  assert (H : registers_in_range sample_device /\
              0 <= 0 < 8 /\ 0x01 = 2 ^ 0 /\ 0 <= 1 < 8 /\ 0x02 = 2 ^ 1)
    by (unfold registers_in_range; cbn; lia).
  split; [exact H|].
  destruct H as [Hrange [Hi [Hactive [Hj Hresched]]]].
  exact (set_flag_to_current_value 0x01 0x02 QuitRx sample_device 0 1
           Hrange Hi Hactive Hj Hresched).
Defined.

(** A 32768 Hz counter and the default 100 ms: 3276 ticks per interval. *)
Lemma phase_repeats_example :
  (100000 <> 0 /\ INTERVAL 100000 (us_to_ticks_at 32768) <> 0 /\
   0 <= 70000 /\ 0 <= 5 /\
   70000 + 5 * INTERVAL 100000 (us_to_ticks_at 32768) < 2 ^ 32) /\
  _gnrc_lwmac_ticks_to_phase 100000 (us_to_ticks_at 32768)
    (70000 + 5 * INTERVAL 100000 (us_to_ticks_at 32768))
  = _gnrc_lwmac_ticks_to_phase 100000 (us_to_ticks_at 32768) 70000.
Proof.
  assert (Hi : INTERVAL 100000 (us_to_ticks_at 32768) = 3276) by reflexivity.
  assert (H : 100000 <> 0 /\ INTERVAL 100000 (us_to_ticks_at 32768) <> 0 /\
              0 <= 70000 /\ 0 <= 5 /\
              70000 + 5 * INTERVAL 100000 (us_to_ticks_at 32768) < 2 ^ 32)
    by (rewrite Hi; lia).
  split; [exact H|].
  destruct H as [Hus [Hticks [Ht [Hk Hfit]]]].
  exact (phase_repeats 100000 (us_to_ticks_at 32768) 70000 5
           Hus Hticks Ht Hk Hfit).
Defined.

Lemma phase_of_phase_example :
  (100000 <> 0 /\ INTERVAL 100000 (us_to_ticks_at 32768) <> 0) /\
  exists p,
    _gnrc_lwmac_ticks_to_phase 100000 (us_to_ticks_at 32768) 70000
    = Returns p /\
    _gnrc_lwmac_ticks_to_phase 100000 (us_to_ticks_at 32768) p = Returns p.
Proof.
  assert (Hi : INTERVAL 100000 (us_to_ticks_at 32768) = 3276) by reflexivity.
  assert (H : 100000 <> 0 /\ INTERVAL 100000 (us_to_ticks_at 32768) <> 0)
    by (rewrite Hi; lia).
  split; [exact H|].
  destruct H as [Hus Hticks].
  exact (phase_of_phase 100000 (us_to_ticks_at 32768) 70000 Hus Hticks).
Defined.

Lemma ticks_until_phase_reaches_target_example :
  (32 = 32 /\ 100000 <> 0 /\
   0 < INTERVAL 100000 (us_to_ticks_at 32768) <= 2 ^ 31 /\
   0 <= 10 < INTERVAL 100000 (us_to_ticks_at 32768)) /\
  exists ticks,
    _gnrc_lwmac_ticks_until_phase 32 100000 (us_to_ticks_at 32768) 5000 10
    = Returns ticks /\
    ((0 <= 5000 /\ 5000 + ticks < 2 ^ 32) \/
     2 ^ 32 mod INTERVAL 100000 (us_to_ticks_at 32768) = 0 ->
     _gnrc_lwmac_phase_now 100000 (us_to_ticks_at 32768) (5000 + ticks)
     = Returns 10).
Proof.
  assert (Hi : INTERVAL 100000 (us_to_ticks_at 32768) = 3276) by reflexivity.
  assert (H : 32 = 32 /\ 100000 <> 0 /\
              0 < INTERVAL 100000 (us_to_ticks_at 32768) <= 2 ^ 31 /\
              0 <= 10 < INTERVAL 100000 (us_to_ticks_at 32768))
    by (rewrite Hi; lia).
  split; [exact H|].
  destruct H as [H32 [Hus [Hi31 Hp]]].
  exact (ticks_until_phase_reaches_target 100000 (us_to_ticks_at 32768)
           32 5000 10 H32 Hus Hi31 Hp).
Defined.

Lemma ticks_until_phase_counts_down_example :
  (32 = 32 /\ 100000 <> 0 /\
   0 < INTERVAL 100000 (us_to_ticks_at 32768) <= 2 ^ 31 /\
   0 <= 10 < INTERVAL 100000 (us_to_ticks_at 32768) /\
   0 <= 5000 /\ 0 <= 1000 /\ 5000 + 1000 < 2 ^ 32) /\
  exists ticks,
    _gnrc_lwmac_ticks_until_phase 32 100000 (us_to_ticks_at 32768) 5000 10
    = Returns ticks /\
    (1000 <= ticks ->
     _gnrc_lwmac_ticks_until_phase 32 100000 (us_to_ticks_at 32768)
       (5000 + 1000) 10
     = Returns (ticks - 1000)).
Proof.
  assert (Hi : INTERVAL 100000 (us_to_ticks_at 32768) = 3276) by reflexivity.
  assert (H : 32 = 32 /\ 100000 <> 0 /\
              0 < INTERVAL 100000 (us_to_ticks_at 32768) <= 2 ^ 31 /\
              0 <= 10 < INTERVAL 100000 (us_to_ticks_at 32768) /\
              0 <= 5000 /\ 0 <= 1000 /\ 5000 + 1000 < 2 ^ 32)
    by (rewrite Hi; lia).
  split; [exact H|].
  destruct H as [H32 [Hus [Hi31 [Hp [Hc [Hk Hfit]]]]]].
  exact (ticks_until_phase_counts_down 100000 (us_to_ticks_at 32768)
           32 5000 10 1000 H32 Hus Hi31 Hp Hc Hk Hfit).
Defined.

Lemma ticks_until_phase_there_and_back_example :
  (32 = 32 /\ 100000 <> 0 /\
   0 < INTERVAL 100000 (us_to_ticks_at 32768) <= 2 ^ 31) /\
  exists a b forth back,
    _gnrc_lwmac_phase_now 100000 (us_to_ticks_at 32768) 5000 = Returns a /\
    _gnrc_lwmac_phase_now 100000 (us_to_ticks_at 32768) 70000 = Returns b /\
    _gnrc_lwmac_ticks_until_phase 32 100000 (us_to_ticks_at 32768) 5000 b
    = Returns forth /\
    _gnrc_lwmac_ticks_until_phase 32 100000 (us_to_ticks_at 32768) 70000 a
    = Returns back /\
    forth + back
    = (if a =? b then 0 else INTERVAL 100000 (us_to_ticks_at 32768)).
Proof.
  assert (Hi : INTERVAL 100000 (us_to_ticks_at 32768) = 3276) by reflexivity.
  assert (H : 32 = 32 /\ 100000 <> 0 /\
              0 < INTERVAL 100000 (us_to_ticks_at 32768) <= 2 ^ 31)
    by (rewrite Hi; lia).
  split; [exact H|].
  destruct H as [H32 [Hus Hi31]].
  exact (ticks_until_phase_there_and_back 100000 (us_to_ticks_at 32768)
           32 5000 70000 H32 Hus Hi31).
Defined.

(** The counter stands at phase 1724 and the target 10000 lies beyond the
    interval of 3276 ticks. *)
Lemma ticks_until_phase_unreduced_target_example :
  (32 = 32 /\ 100000 <> 0 /\
   INTERVAL 100000 (us_to_ticks_at 32768) <> 0 /\ 0 <= 10000 < 2 ^ 32) /\
  exists now,
    _gnrc_lwmac_phase_now 100000 (us_to_ticks_at 32768) 5000 = Returns now /\
    (now <= 10000 < now + 2 ^ 31 ->
     _gnrc_lwmac_ticks_until_phase 32 100000 (us_to_ticks_at 32768) 5000 10000
     = Returns (10000 - now)).
Proof.
  assert (Hi : INTERVAL 100000 (us_to_ticks_at 32768) = 3276) by reflexivity.
  assert (H : 32 = 32 /\ 100000 <> 0 /\
              INTERVAL 100000 (us_to_ticks_at 32768) <> 0 /\
              0 <= 10000 < 2 ^ 32)
    by (rewrite Hi; lia).
  split; [exact H|].
  destruct H as [H32 [Hus [Hticks Hp]]].
  exact (ticks_until_phase_unreduced_target 100000 (us_to_ticks_at 32768)
           32 5000 10000 H32 Hus Hticks Hp).
Defined.

Lemma ticks_until_phase_wide_long_example :
  (64 = 64 /\ 100000 <> 0 /\
   INTERVAL 100000 (us_to_ticks_at 1000000) <> 0 /\ 0 <= 10000 < 2 ^ 32) /\
  exists now,
    _gnrc_lwmac_phase_now 100000 (us_to_ticks_at 1000000) 90000
    = Returns now /\
    _gnrc_lwmac_ticks_until_phase 64 100000 (us_to_ticks_at 1000000)
      90000 10000
    = Returns (if 10000 <? now then 10000 - now + 2 ^ 32 else 10000 - now).
Proof.
  assert (Hi : INTERVAL 100000 (us_to_ticks_at 1000000) = 100000)
    by reflexivity.
  assert (H : 64 = 64 /\ 100000 <> 0 /\
              INTERVAL 100000 (us_to_ticks_at 1000000) <> 0 /\
              0 <= 10000 < 2 ^ 32)
    by (rewrite Hi; lia).
  split; [exact H|].
  destruct H as [H64 [Hus [Hticks Hp]]].
  exact (ticks_until_phase_wide_long 100000 (us_to_ticks_at 1000000)
           64 90000 10000 H64 Hus Hticks Hp).
Defined.
